(** * Segment store and membership index of [src/App.jsx]

    A shallow embedding of the state handlers of the [App] component:
    the two pieces of React state ([segments], [userSegments]) and the
    handlers that update them.  Every handler is embedded as one atomic
    transition on the state: the validation it runs when it is called and
    the functional updates ([setSegments(prev => ...)],
    [setUserSegments(prev => ...)]) it schedules behind [setTimeout] are
    applied to the same state, and each updater runs once.  The toast
    handed to [showMessage] is the outcome the handler reports; where a
    toast reads a variable that an updater writes, the handler takes as a
    parameter whether React has run the updater by then. *)

From Stdlib Require Import ZArith String Ascii List.
From stdpp Require Import gmap strings list fin_maps pretty.

Local Open Scope string_scope.
Local Open Scope list_scope.
Local Open Scope Z_scope.

(** ** JavaScript strings

    A string is a sequence of code units; the embedding covers the code
    units below 256, one [ascii] each. *)
Module JS.

(** [WhiteSpace] and [LineTerminator] of ECMAScript among the code units
    below 256: TAB, LF, VT, FF, CR, SP and NBSP. *)
Definition is_white_space (c : ascii) : bool :=
  let n := nat_of_ascii c in
  bool_decide (n ∈ [9; 10; 11; 12; 13; 32; 160]%nat).

Fixpoint trimStart (s : string) : string :=
  match s with
  | EmptyString => EmptyString
  | String c s' => if is_white_space c then trimStart s' else s
  end.

Definition trimEnd (s : string) : string :=
  String.rev (trimStart (String.rev s)).

(** [String.prototype.trim] *)
Definition trim (s : string) : string := trimEnd (trimStart s).

(** [!s] for a string [s]: only the empty string is falsy. *)
Definition falsy (s : string) : bool := bool_decide (s = "").

(** [arr.includes(x)] on an array of strings *)
Definition includes (arr : list string) (x : string) : bool :=
  bool_decide (x ∈ arr).

(** [obj[key] || []]: an absent key reads as [undefined], and an array,
    empty or not, is truthy. *)
Definition get_or_empty (obj : gmap string (list string)) (key : string)
  : list string :=
  default [] (obj !! key).

(** The property key a number is turned into when it indexes an object:
    its decimal numeral. *)
Definition key_of (n : Z) : string := pretty n.

End JS.

(** ** Data model *)

Module Segment.
Record t := mk {
  id : string;
  name : string;
  description : string;
  createdAt : string;
  updatedAt : string
}.
End Segment.

(** The React state that the handlers read and write.  [editingSegment],
    [message] and [loading] only drive the presentation. *)
Record AppState := mkState {
  segments : list Segment.t;
  userSegments : gmap string (list string)
}.

Definition initialState : AppState := mkState [] ∅.

(** [setSegments(prev => f(prev))] and [setUserSegments(prev => f(prev))] *)
Definition setSegments (f : list Segment.t → list Segment.t) (st : AppState)
  : AppState :=
  mkState (f (segments st)) (userSegments st).

Definition setUserSegments
  (f : gmap string (list string) → gmap string (list string)) (st : AppState)
  : AppState :=
  mkState (segments st) (f (userSegments st)).

(** The toasts of [showMessage], one constructor per call site. *)
Inductive Notice :=
  | EmptyName
  | NameExists (name : string)
  | SegmentCreated (name : string)
  | SegmentUpdated (name : string)
  | SegmentDeleted (name : string)
  | NeedUserAndSegment
  | UserAdded (userId : string)
  | UserRemoved (userId : string)
  | NeedSegment
  | PercentageOutOfRange
  | UsersAssigned (assignedCount : nat) (segmentName : option string)
      (percentage : Z).

(** The second argument of [showMessage]: ['error'] at the five
    validation sites, the default ['success'] elsewhere. *)
Definition is_error (n : Notice) : bool :=
  match n with
  | EmptyName | NameExists _ | NeedUserAndSegment | NeedSegment
  | PercentageOutOfRange => true
  | _ => false
  end.

(** The error kinds of the specification, and the kind each error toast
    stands for.  No call site reports a missing segment. *)
Inductive ErrorKind := ValidationError | DuplicateNameError | NotFoundError.

Definition error_kind (n : Notice) : option ErrorKind :=
  match n with
  | EmptyName | NeedUserAndSegment | NeedSegment | PercentageOutOfRange =>
      Some ValidationError
  | NameExists _ => Some DuplicateNameError
  | _ => None
  end.

Definition fails_with (k : ErrorKind) (n : Notice) : Prop :=
  error_kind n = Some k.

(** ** Segment handlers *)

(** [handleCreateSegment(name, description)].  [newId] is the value
    [generateId()] returns and [now] the value of
    [new Date().toISOString()]. *)
Definition handleCreateSegment (newId now : string) (name description : string)
  (st : AppState) : AppState * Notice :=
  if JS.falsy (JS.trim name) then (st, EmptyName)
  else if existsb (λ s, bool_decide (Segment.name s = name)) (segments st)
  then (st, NameExists name)
  else
    let newSegment :=
      Segment.mk newId (JS.trim name) (JS.trim description) now now in
    (setSegments (λ prev, prev ++ [newSegment]) st, SegmentCreated name).

(** [handleUpdateSegment(id, newName, newDescription)] *)
Definition handleUpdateSegment (now : string) (id newName newDescription : string)
  (st : AppState) : AppState * Notice :=
  if JS.falsy (JS.trim newName) then (st, EmptyName)
  else if existsb
            (λ s, bool_decide (Segment.name s = newName)
                  && negb (bool_decide (Segment.id s = id)))
            (segments st)
  then (st, NameExists newName)
  else
    (setSegments
       (λ prev,
          map (λ s,
                 if bool_decide (Segment.id s = id)
                 then Segment.mk (Segment.id s) (JS.trim newName)
                        (JS.trim newDescription) (Segment.createdAt s) now
                 else s)
              prev)
       st,
     SegmentUpdated newName).

(** The updater of [setUserSegments] in [handleDeleteSegment]: the
    [for ... in] loop over the keys of [prev], building [newState]. *)
Definition cascadeStep (id : string) (userId : string) (segs : list string)
  (newState : gmap string (list string)) : gmap string (list string) :=
  let filtered := filter (λ segmentId, segmentId ≠ id) segs in
  let newState := <[userId := filtered]> newState in
  if bool_decide (length filtered = 0%nat) then delete userId newState
  else newState.

Definition cascadeDelete (id : string) (prev : gmap string (list string))
  : gmap string (list string) :=
  map_fold (cascadeStep id) ∅ prev.

(** [handleDeleteSegment(id, name)].  [confirmed] is the answer of
    [window.confirm]; nothing happens when it is [false]. *)
Definition handleDeleteSegment (confirmed : bool) (id name : string)
  (st : AppState) : AppState * option Notice :=
  if confirmed then
    (setUserSegments (cascadeDelete id)
       (setSegments (filter (λ s, Segment.id s ≠ id)) st),
     Some (SegmentDeleted name))
  else (st, None).

(** ** Membership handlers *)

(** [handleAddUserToSegment(userId, segmentId)] *)
Definition handleAddUserToSegment (userId segmentId : string) (st : AppState)
  : AppState * Notice :=
  if JS.falsy userId || JS.falsy segmentId then (st, NeedUserAndSegment)
  else
    (setUserSegments
       (λ prev,
          let currentSegments := JS.get_or_empty prev userId in
          if negb (JS.includes currentSegments segmentId)
          then <[userId := currentSegments ++ [segmentId]]> prev
          else prev)
       st,
     UserAdded userId).

(** [handleRemoveUserFromSegment(userId, segmentId)] *)
Definition handleRemoveUserFromSegment (userId segmentId : string)
  (st : AppState) : AppState * Notice :=
  if JS.falsy userId || JS.falsy segmentId then (st, NeedUserAndSegment)
  else
    (setUserSegments
       (λ prev,
          let currentSegments := JS.get_or_empty prev userId in
          let newSegments := filter (λ id, id ≠ segmentId) currentSegments in
          if bool_decide (length newSegments = 0%nat)
          then delete userId prev
          else <[userId := newSegments]> prev)
       st,
     UserRemoved userId).

(** [Array.from({ length: 1000 }, (_, i) => i + 1)] *)
Definition allPossibleUserIds : list Z :=
  map (λ i, Z.of_nat i + 1) (seq 0 1000).

(** The body of [allPossibleUserIds.forEach(userId => ...)], acting on
    [newSegmentsState] and the counter [assignedCount].  [%] is the
    remainder that takes the sign of the dividend. *)
Definition assignStep (segmentId : string) (percentage : Z)
  (acc : gmap string (list string) * nat) (userId : Z)
  : gmap string (list string) * nat :=
  let '(newSegmentsState, assignedCount) := acc in
  let hash := Z.rem userId 100 in
  if bool_decide (hash < percentage) then
    let currentSegments := JS.get_or_empty newSegmentsState (JS.key_of userId) in
    if negb (JS.includes currentSegments segmentId)
    then (<[JS.key_of userId := currentSegments ++ [segmentId]]> newSegmentsState,
          S assignedCount)
    else (newSegmentsState, assignedCount)
  else
    let currentSegments := JS.get_or_empty newSegmentsState (JS.key_of userId) in
    let filtered := filter (λ id, id ≠ segmentId) currentSegments in
    let newSegmentsState := <[JS.key_of userId := filtered]> newSegmentsState in
    if bool_decide (length filtered = 0%nat)
    then (delete (JS.key_of userId) newSegmentsState, assignedCount)
    else (newSegmentsState, assignedCount).

(** The updater of [setUserSegments] in [handleAssignRandomUsers], run
    over a list of candidates, with the value [assignedCount] has when it
    is done. *)
Definition assignLoop (candidates : list Z) (segmentId : string)
  (percentage : Z) (prev : gmap string (list string))
  : gmap string (list string) * nat :=
  fold_left (assignStep segmentId percentage) candidates (prev, 0%nat).

(** When React runs the updater that [handleAssignRandomUsers] hands to
    [setUserSegments], relative to the [showMessage] that follows the call
    in the timer callback: [Deferred], after the callback has returned (a
    root made by [createRoot] batches the update), or [Immediate], within
    the call (a legacy root renders at once an update made outside its
    event handlers). *)
Inductive Scheduling := Deferred | Immediate.

(** [handleAssignRandomUsers(segmentId, percentage)].  [percentage] is an
    integer, as [parseInt] produces from a filled-in percentage field.
    [assignedCount] starts at 0 and is incremented by the updater; the
    toast is built by the statement after [setUserSegments(...)] and
    carries the value [assignedCount] has there: still 0 when the updater
    is [Deferred], the value the loop leaves when it is [Immediate].  The
    name is the one [segments.find] returns, if any. *)
Definition handleAssignRandomUsers (scheduling : Scheduling)
  (segmentId : string) (percentage : Z) (st : AppState) : AppState * Notice :=
  if JS.falsy segmentId then (st, NeedSegment)
  else if bool_decide (percentage < 0) || bool_decide (percentage > 100)
  then (st, PercentageOutOfRange)
  else
    let '(next, counted) :=
      assignLoop allPossibleUserIds segmentId percentage (userSegments st) in
    let assignedCount :=
      match scheduling with Deferred => 0%nat | Immediate => counted end in
    (setUserSegments (λ _, next) st,
     UsersAssigned assignedCount
       (Segment.name <$>
          find (λ s, bool_decide (Segment.id s = segmentId)) (segments st))
       percentage).

(** [handleLookup] of [UserSegmentLookup]: the value given to
    [setFoundSegments]. *)
Definition handleLookup (segments : list Segment.t)
  (userSegmentsMapping : gmap string (list string)) (lookupUserId : string)
  : list Segment.t :=
  if JS.falsy lookupUserId then []
  else
    let userSegmentsIds := JS.get_or_empty userSegmentsMapping lookupUserId in
    if bool_decide (length userSegmentsIds = 0%nat) then []
    else filter (λ s, Segment.id s ∈ userSegmentsIds) segments.

(** ** Vocabulary of the properties *)

(** [segmentId] is the id of a segment of the store. *)
Definition live (segs : list Segment.t) (segmentId : string) : Prop :=
  segmentId ∈ map Segment.id segs.

(** [userId] is a member of [segmentId] in the membership index. *)
Definition member (m : gmap string (list string)) (userId segmentId : string)
  : Prop :=
  segmentId ∈ JS.get_or_empty m userId.

(** Every segment id of every membership set is the id of a live segment. *)
Definition memberships_live (st : AppState) : Prop :=
  ∀ userId segmentId,
    member (userSegments st) userId segmentId → live (segments st) segmentId.

(** No key of the membership index holds an empty set. *)
Definition no_empty_sets (m : gmap string (list string)) : Prop :=
  ∀ userId, m !! userId ≠ Some [].

(** No two segments of the store, at different positions, share a name. *)
Definition names_unique (segs : list Segment.t) : Prop :=
  NoDup (map Segment.name segs).

#[global] Instance live_dec segs segmentId : Decision (live segs segmentId).
Proof. unfold live. apply _. Defined.

#[global] Instance member_dec m userId segmentId :
  Decision (member m userId segmentId).
Proof. unfold member. apply _. Defined.

(** The candidates of [handleAssignRandomUsers] that were not members of
    [segmentId] in [before] and are members in [after]. *)
Definition newlyAdded (segmentId : string)
  (before after : gmap string (list string)) : list Z :=
  filter
    (λ userId, ¬ member before (JS.key_of userId) segmentId
               ∧ member after (JS.key_of userId) segmentId)
    allPossibleUserIds.

(** What one round of [assignStep] for [userId] leaves under the key of
    [userId], from what was there. *)
Definition assignValue (segmentId : string) (percentage : Z) (userId : Z)
  (o : option (list string)) : option (list string) :=
  let currentSegments := default [] o in
  if bool_decide (Z.rem userId 100 < percentage) then
    if bool_decide (segmentId ∈ currentSegments) then o
    else Some (currentSegments ++ [segmentId])
  else
    let filtered := filter (λ id, id ≠ segmentId) currentSegments in
    if bool_decide (length filtered = 0%nat) then None else Some filtered.

(** Whether the round of [assignStep] for [userId] increments
    [assignedCount]. *)
Definition counted (segmentId : string) (percentage : Z)
  (m : gmap string (list string)) (userId : Z) : Prop :=
  Z.rem userId 100 < percentage
  ∧ segmentId ∉ JS.get_or_empty m (JS.key_of userId).

#[global] Instance counted_dec segmentId percentage m userId :
  Decision (counted segmentId percentage m userId).
Proof. unfold counted. apply _. Defined.

(** What [cascadeDelete] leaves of one membership set. *)
Definition cascadeValue (id : string) (segs : list string)
  : option (list string) :=
  let filtered := filter (λ segmentId, segmentId ≠ id) segs in
  if bool_decide (length filtered = 0%nat) then None else Some filtered.

(** ** The core operations as transitions *)

Inductive Op :=
  | CreateSegment (newId now name description : string)
  | UpdateSegment (now id newName newDescription : string)
  | DeleteSegment (confirmed : bool) (id name : string)
  | AddUserToSegment (userId segmentId : string)
  | RemoveUserFromSegment (userId segmentId : string)
  | AssignRandomUsers (scheduling : Scheduling) (segmentId : string)
      (percentage : Z).

Definition run (op : Op) (st : AppState) : AppState :=
  match op with
  | CreateSegment newId now name description =>
      (handleCreateSegment newId now name description st).1
  | UpdateSegment now id newName newDescription =>
      (handleUpdateSegment now id newName newDescription st).1
  | DeleteSegment confirmed id name =>
      (handleDeleteSegment confirmed id name st).1
  | AddUserToSegment userId segmentId =>
      (handleAddUserToSegment userId segmentId st).1
  | RemoveUserFromSegment userId segmentId =>
      (handleRemoveUserFromSegment userId segmentId st).1
  | AssignRandomUsers scheduling segmentId percentage =>
      (handleAssignRandomUsers scheduling segmentId percentage st).1
  end.

(** The states the handlers reach from the empty stores. *)
Inductive reachable : AppState → Prop :=
  | reachable_initial : reachable initialState
  | reachable_run op st : reachable st → reachable (run op st).

(** The segment an operation adds members to, if it adds any, is live. *)
Definition target_live (op : Op) (st : AppState) : Prop :=
  match op with
  | AddUserToSegment _ segmentId | AssignRandomUsers _ segmentId _ =>
      live (segments st) segmentId
  | _ => True
  end.

(** The states reached from the empty stores by operations whose target
    segment is live. *)
Inductive reachable_live : AppState → Prop :=
  | reachable_live_initial : reachable_live initialState
  | reachable_live_run op st :
      reachable_live st → target_live op st → reachable_live (run op st).

(** The toast an operation shows, if it shows one. *)
Definition notice (op : Op) (st : AppState) : option Notice :=
  match op with
  | CreateSegment newId now name description =>
      Some (handleCreateSegment newId now name description st).2
  | UpdateSegment now id newName newDescription =>
      Some (handleUpdateSegment now id newName newDescription st).2
  | DeleteSegment confirmed id name =>
      (handleDeleteSegment confirmed id name st).2
  | AddUserToSegment userId segmentId =>
      Some (handleAddUserToSegment userId segmentId st).2
  | RemoveUserFromSegment userId segmentId =>
      Some (handleRemoveUserFromSegment userId segmentId st).2
  | AssignRandomUsers scheduling segmentId percentage =>
      Some (handleAssignRandomUsers scheduling segmentId percentage st).2
  end.

(** A string that does not begin with white space. *)
Definition starts_clean (s : string) : Prop :=
  match s with
  | EmptyString => True
  | String c _ => JS.is_white_space c = false
  end.

(** [{ ...s, name: newName.trim(), description: newDescription.trim(),
    updatedAt: ... }] of [handleUpdateSegment] *)
Definition updatedSegment (now newName newDescription : string)
  (s : Segment.t) : Segment.t :=
  Segment.mk (Segment.id s) (JS.trim newName) (JS.trim newDescription)
    (Segment.createdAt s) now.

(** No membership set lists a segment id twice. *)
Definition sets_nodup (m : gmap string (list string)) : Prop :=
  ∀ userId segs, m !! userId = Some segs → NoDup segs.

(** Every stored name is non-empty and is its own trimmed form. *)
Definition names_trimmed (segs : list Segment.t) : Prop :=
  ∀ s, s ∈ segs → Segment.name s ≠ "" ∧ JS.trim (Segment.name s) = Segment.name s.

(** No two segments of the store, at different positions, share an id. *)
Definition ids_unique (segs : list Segment.t) : Prop :=
  NoDup (map Segment.id segs).

(** The id [generateId] hands to a creation is the id of no segment. *)
Definition fresh_id (op : Op) (st : AppState) : Prop :=
  match op with
  | CreateSegment newId _ _ _ => ¬ live (segments st) newId
  | _ => True
  end.

(** The candidates that are members of [segmentId]. *)
Definition candidateMembers (segmentId : string)
  (m : gmap string (list string)) : list Z :=
  filter (λ userId, member m (JS.key_of userId) segmentId) allPossibleUserIds.

(** ** Sample states *)

Definition betaSegment : Segment.t :=
  Segment.mk "k3x9q0a1z" "BETA" "Beta testers" "2024-01-01T00:00:00.000Z"
    "2024-01-01T00:00:00.000Z".

Definition betaStore : AppState :=
  mkState [betaSegment]
    {[ "1" := ["k3x9q0a1z"]; "250" := ["k3x9q0a1z"; "other"];
       "7" := ["other"]; "anna" := ["k3x9q0a1z"] ]}.

(** User 42 is a member of BETA and of nothing else. *)
Definition memberStore : AppState :=
  mkState [betaSegment] {[ "42" := ["k3x9q0a1z"] ]}.

(** The store holds the segment named A. *)
Definition namedStore : AppState :=
  mkState
    [Segment.mk "p0o9i8u7y" "A" "" "2024-01-01T00:00:00.000Z"
       "2024-01-01T00:00:00.000Z"]
    ∅.

Definition alphaSegment : Segment.t :=
  Segment.mk "a1b2c3d4e" "ALPHA" "Alpha testers" "2024-01-02T00:00:00.000Z"
    "2024-01-02T00:00:00.000Z".

(** Two segments; user 42 is in both, user 7 in ALPHA only. *)
Definition twoSegmentStore : AppState :=
  mkState [betaSegment; alphaSegment]
    {[ "42" := ["k3x9q0a1z"; "a1b2c3d4e"]; "7" := ["a1b2c3d4e"] ]}.

(** * Properties *)

(** A closed decidable fact, settled by evaluating its decision. *)
Ltac by_evaluation := apply (bool_decide_unpack _); vm_compute; exact I.

Create HintDb memberships.

(** ** JavaScript helpers *)

Lemma falsy_true s : JS.falsy s = true ↔ s = "".
Proof. unfold JS.falsy. apply bool_decide_eq_true. Qed.

Lemma falsy_false s : JS.falsy s = false ↔ s ≠ "".
Proof. unfold JS.falsy. apply bool_decide_eq_false. Qed.

Example trim_sample :
  JS.trim (String "009" (String "010" " MAIL GPT  ")) = "MAIL GPT"
  ∧ JS.trim (String "160" "   ") = ""
  ∧ JS.key_of 1000 = "1000".
Proof. split; [by vm_compute|]. split; by vm_compute. Qed.

#[global] Instance key_of_inj : Inj (=) (=) JS.key_of.
Proof. unfold JS.key_of. apply _. Qed.

Lemma rem_mod_candidate u : 0 ≤ u → Z.rem u 100 = u `mod` 100.
Proof. intros Hu. apply Z.rem_mod_nonneg; lia. Qed.

Lemma elem_of_allPossibleUserIds u : u ∈ allPossibleUserIds ↔ 1 ≤ u ≤ 1000.
Proof.
  unfold allPossibleUserIds. change (map ?f ?l) with (f <$> l).
  rewrite list_elem_of_fmap. split.
  - intros (i & -> & Hi). apply elem_of_seq in Hi. lia.
  - intros Hu. exists (Z.to_nat (u - 1)). split; [lia|].
    apply elem_of_seq. lia.
Qed.

Lemma NoDup_allPossibleUserIds : NoDup allPossibleUserIds.
Proof.
  unfold allPossibleUserIds. change (map ?f ?l) with (f <$> l).
  apply NoDup_fmap_2; [intros i j; lia | apply NoDup_seq].
Qed.

Lemma filter_ne_absent (x : string) (l : list string) :
  x ∉ l → filter (λ y, y ≠ x) l = l.
Proof.
  induction l as [|y l IH]; [done|].
  intros Hx. apply not_elem_of_cons in Hx as [Hxy Hl].
  rewrite filter_cons_True by congruence. by rewrite IH.
Qed.

Lemma filter_ne_idemp (x : string) (l : list string) :
  filter (λ y, y ≠ x) (filter (λ y, y ≠ x) l) = filter (λ y, y ≠ x) l.
Proof.
  apply filter_ne_absent. rewrite list_elem_of_filter. by intros [? _].
Qed.

Lemma list_filter_iff_strong {A} (P1 P2 : A → Prop)
    `{!∀ x, Decision (P1 x), !∀ x, Decision (P2 x)} (l : list A) :
  (∀ x, x ∈ l → P1 x ↔ P2 x) → filter P1 l = filter P2 l.
Proof.
  induction l as [|a l IH]; intros HP; [done|].
  rewrite !filter_cons, IH by (intros x Hx; apply HP; by right).
  pose proof (HP a ltac:(by left)).
  by repeat destruct (decide _); try tauto.
Qed.

Lemma length_zero_nil {A} (l : list A) : length l = 0%nat ↔ l = [].
Proof. destruct l; [done|]. split; intros ?; discriminate. Qed.

(** ** One round of the assignment loop *)

Section assign.
Variables (segmentId : string) (percentage : Z).

Lemma assignStep_lookup m c u k :
  (assignStep segmentId percentage (m, c) u).1 !! k
  = if decide (k = JS.key_of u)
    then assignValue segmentId percentage u (m !! k)
    else m !! k.
Proof.
  unfold assignStep, assignValue, JS.get_or_empty, JS.includes.
  destruct (decide (k = JS.key_of u)) as [->|Hk];
    repeat case_bool_decide; simpl;
    rewrite ?lookup_delete_eq, ?lookup_insert_eq,
      ?lookup_delete_ne, ?lookup_insert_ne by done;
    done.
Qed.

Lemma assignStep_count m c u :
  (assignStep segmentId percentage (m, c) u).2
  = (c + if decide (counted segmentId percentage m u) then 1 else 0)%nat.
Proof.
  unfold assignStep, counted, JS.includes.
  destruct (decide _) as [[H1 H2]|Hn];
    repeat case_bool_decide; simpl; try lia; tauto.
Qed.

(** Reading the key of a candidate after its round. *)
Lemma assignValue_member u o :
  segmentId ∈ default [] (assignValue segmentId percentage u o)
  ↔ Z.rem u 100 < percentage.
Proof.
  unfold assignValue. repeat case_bool_decide; simpl.
  - done.
  - rewrite elem_of_app, list_elem_of_singleton. tauto.
  - split; [|done]. intros H'. by apply elem_of_nil in H'.
  - rewrite list_elem_of_filter. tauto.
Qed.

Lemma assignValue_other u o t :
  t ≠ segmentId →
  t ∈ default [] (assignValue segmentId percentage u o) ↔ t ∈ default [] o.
Proof.
  intros Ht. unfold assignValue. repeat case_bool_decide; simpl.
  - done.
  - rewrite elem_of_app, list_elem_of_singleton.
    split; [intros [?|?]; congruence | tauto].
  - match goal with H : length _ = 0%nat |- _ =>
      apply length_zero_nil in H end.
    split; [intros H'; by apply elem_of_nil in H'|].
    intros H'. exfalso.
    assert (t ∈ filter (λ id, id ≠ segmentId) (default [] o)) as Hin
      by (rewrite list_elem_of_filter; done).
    match goal with H : filter _ _ = [] |- _ => rewrite H in Hin end.
    by apply elem_of_nil in Hin.
  - rewrite list_elem_of_filter. tauto.
Qed.

Lemma assignValue_idemp u o :
  assignValue segmentId percentage u (assignValue segmentId percentage u o)
  = assignValue segmentId percentage u o.
Proof.
  destruct (decide (Z.rem u 100 < percentage)) as [Hlt|Hge].
  - pose proof (proj2 (assignValue_member u o) Hlt) as Hin.
    unfold assignValue at 1.
    rewrite bool_decide_eq_true_2 by done.
    by rewrite bool_decide_eq_true_2 by done.
  - unfold assignValue. rewrite !bool_decide_eq_false_2 by done.
    set (filtered := filter (λ id, id ≠ segmentId) (default [] o)).
    destruct (bool_decide (length filtered = 0%nat)) eqn:E; simpl; [done|].
    subst filtered. by rewrite filter_ne_idemp, E.
Qed.

Lemma assignValue_no_empty u o : o ≠ Some [] →
  assignValue segmentId percentage u o ≠ Some [].
Proof.
  intros Ho. unfold assignValue. repeat case_bool_decide; simpl; try done.
  - intros [= H']. by apply app_eq_nil in H' as [_ ?].
  - intros [= H']. rewrite H' in *. done.
Qed.

(** ** The whole loop, for any duplicate-free list of candidates *)

Lemma assignLoop_frame cands : ∀ m c k,
  (∀ u, u ∈ cands → k ≠ JS.key_of u) →
  (fold_left (assignStep segmentId percentage) cands (m, c)).1 !! k = m !! k.
Proof.
  induction cands as [|u cands IH]; intros m c k Hk; [done|].
  cbn [fold_left]. destruct (assignStep segmentId percentage (m, c) u) as [m' c'] eqn:E.
  rewrite IH by (intros v Hv; apply Hk; by right).
  change m' with (m', c').1. rewrite <-E, assignStep_lookup.
  rewrite decide_False; [done|]. apply Hk. by left.
Qed.

Lemma assignLoop_lookup cands : NoDup cands → ∀ m c u,
  u ∈ cands →
  (fold_left (assignStep segmentId percentage) cands (m, c)).1 !! JS.key_of u
  = assignValue segmentId percentage u (m !! JS.key_of u).
Proof.
  induction 1 as [|v cands Hv Hnd IH]; intros m c u Hu.
  { by apply elem_of_nil in Hu. }
  cbn [fold_left]. destruct (assignStep segmentId percentage (m, c) v) as [m' c'] eqn:E.
  assert (∀ k, m' !! k = if decide (k = JS.key_of v)
                         then assignValue segmentId percentage v (m !! k)
                         else m !! k) as Hm'.
  { intros k. change m' with (m', c').1. rewrite <-E. apply assignStep_lookup. }
  apply elem_of_cons in Hu as [->|Hu].
  - rewrite assignLoop_frame.
    + rewrite Hm'. by rewrite decide_True.
    + intros w Hw Heq. apply (inj _) in Heq. congruence.
  - rewrite IH by done. rewrite Hm'. rewrite decide_False; [done|].
    intros Heq. apply (inj _) in Heq. congruence.
Qed.

Lemma assignLoop_count cands : NoDup cands → ∀ m c,
  (fold_left (assignStep segmentId percentage) cands (m, c)).2
  = (c + length (filter (counted segmentId percentage m) cands))%nat.
Proof.
  induction 1 as [|v cands Hv Hnd IH]; intros m c; [simpl; lia|].
  cbn [fold_left]. destruct (assignStep segmentId percentage (m, c) v) as [m' c'] eqn:E.
  rewrite IH.
  assert (c' = (c + if decide (counted segmentId percentage m v)
                    then 1 else 0)%nat) as Hc'.
  { change c' with (m', c').2. rewrite <-E. apply assignStep_count. }
  assert (filter (counted segmentId percentage m') cands
          = filter (counted segmentId percentage m) cands) as ->.
  { apply list_filter_iff_strong. intros w Hw. unfold counted, JS.get_or_empty.
    change m' with (m', c').1. rewrite <-E, assignStep_lookup.
    rewrite decide_False; [done|].
    intros Heq. apply (inj _) in Heq. congruence. }
  rewrite Hc', filter_cons. destruct (decide _); simpl; lia.
Qed.
End assign.

Lemma filter_none {A} (P : A → Prop) `{!∀ x, Decision (P x)} (l : list A) :
  (∀ x, x ∈ l → ¬ P x) → filter P l = [].
Proof.
  induction l as [|a l IH]; intros HP; [done|].
  rewrite filter_cons_False by (apply HP; by left).
  apply IH. intros x Hx. apply HP. by right.
Qed.

Lemma assignLoop_idemp segmentId percentage cands m :
  NoDup cands →
  let once := assignLoop cands segmentId percentage m in
  assignLoop cands segmentId percentage once.1 = (once.1, 0%nat).
Proof.
  intros Hnd once. subst once. unfold assignLoop.
  set (m1 := (fold_left (assignStep segmentId percentage) cands (m, 0%nat)).1).
  assert (∀ u, u ∈ cands →
    m1 !! JS.key_of u = assignValue segmentId percentage u (m !! JS.key_of u))
    as Hm1 by (intros u Hu; by apply assignLoop_lookup).
  apply injective_projections.
  - apply map_eq. intros k. cbn [fst].
    destruct (decide (k ∈ JS.key_of <$> cands)) as [Hin|Hout].
    + apply list_elem_of_fmap in Hin as (u & -> & Hu).
      rewrite assignLoop_lookup by done.
      rewrite Hm1 by done. apply assignValue_idemp.
    + apply assignLoop_frame. intros u Hu ->. apply Hout.
      by apply list_elem_of_fmap_2.
  - rewrite assignLoop_count by done. cbn [snd].
    rewrite filter_none; [done|].
    intros u Hu [Hlt Hnot]. apply Hnot. unfold JS.get_or_empty.
    rewrite Hm1 by done. by apply assignValue_member.
Qed.

(** ** [handleAssignRandomUsers] *)

Lemma handleAssignRandomUsers_valid scheduling segmentId percentage st :
  segmentId ≠ "" → 0 ≤ percentage ≤ 100 →
  handleAssignRandomUsers scheduling segmentId percentage st
  = (mkState (segments st)
       (assignLoop allPossibleUserIds segmentId percentage (userSegments st)).1,
     UsersAssigned
       (match scheduling with
        | Deferred => 0%nat
        | Immediate =>
            (assignLoop allPossibleUserIds segmentId percentage
               (userSegments st)).2
        end)
       (Segment.name <$>
          find (λ s, bool_decide (Segment.id s = segmentId)) (segments st))
       percentage).
Proof.
  intros Hs Hp. unfold handleAssignRandomUsers.
  rewrite (proj2 (falsy_false _) Hs).
  rewrite !bool_decide_eq_false_2 by lia. cbn [orb].
  by destruct (assignLoop _ _ _ _).
Qed.

Lemma handleAssignRandomUsers_cases scheduling segmentId percentage st :
  (handleAssignRandomUsers scheduling segmentId percentage st).1 = st
  ∨ (handleAssignRandomUsers scheduling segmentId percentage st).1
    = mkState (segments st)
        (assignLoop allPossibleUserIds segmentId percentage (userSegments st)).1.
Proof.
  unfold handleAssignRandomUsers.
  destruct (JS.falsy segmentId); [by left|].
  destruct (_ || _); [by left|].
  right. by destruct (assignLoop _ _ _ _).
Qed.

Lemma handleAssignRandomUsers_segments scheduling segmentId percentage st :
  segments (handleAssignRandomUsers scheduling segmentId percentage
        st).1 = segments st.
Proof.
  by destruct (handleAssignRandomUsers_cases scheduling segmentId percentage
        st) as [->| ->].
Qed.

(** Keys that are the numeral of no candidate keep their entry. *)
Lemma handleAssignRandomUsers_other_keys scheduling segmentId percentage st k :
  (∀ u, 1 ≤ u ≤ 1000 → k ≠ JS.key_of u) →
  userSegments (handleAssignRandomUsers scheduling segmentId percentage
        st).1 !! k
  = userSegments st !! k.
Proof.
  intros Hk.
  destruct (handleAssignRandomUsers_cases scheduling segmentId percentage
        st) as [->| ->];
    [done|].
  cbn [userSegments]. apply assignLoop_frame.
  intros u Hu. apply Hk. by apply elem_of_allPossibleUserIds.
Qed.

(** Membership in any other segment is kept, for every key. *)
Lemma handleAssignRandomUsers_other_segments scheduling segmentId percentage
      st k t :
  t ≠ segmentId →
  member (userSegments (handleAssignRandomUsers scheduling segmentId percentage
        st).1) k t
  ↔ member (userSegments st) k t.
Proof.
  intros Ht.
  destruct (handleAssignRandomUsers_cases scheduling segmentId percentage
        st) as [->| ->];
    [done|].
  cbn [userSegments]. unfold member, JS.get_or_empty.
  destruct (decide (k ∈ JS.key_of <$> allPossibleUserIds)) as [Hin|Hout].
  - apply list_elem_of_fmap in Hin as (u & -> & Hu).
    unfold assignLoop.
    rewrite assignLoop_lookup by (done || apply NoDup_allPossibleUserIds).
    by apply assignValue_other.
  - unfold assignLoop. rewrite assignLoop_frame; [done|].
    intros u Hu ->. apply Hout. by apply list_elem_of_fmap_2.
Qed.

(** Membership of a candidate in [segmentId] after a valid call. *)
Lemma handleAssignRandomUsers_candidate scheduling segmentId percentage st u :
  segmentId ≠ "" → 0 ≤ percentage ≤ 100 → 1 ≤ u ≤ 1000 →
  member (userSegments (handleAssignRandomUsers scheduling segmentId percentage
        st).1)
    (JS.key_of u) segmentId
  ↔ u `mod` 100 < percentage.
Proof.
  intros Hs Hp Hu. rewrite handleAssignRandomUsers_valid by done.
  cbn [fst userSegments]. unfold member, JS.get_or_empty, assignLoop.
  rewrite assignLoop_lookup
    by (apply NoDup_allPossibleUserIds || by apply elem_of_allPossibleUserIds).
  rewrite assignValue_member. by rewrite rem_mod_candidate by lia.
Qed.

(** ** Percentage assignment *)

(** C4: on the sample store, where BETA is live, a call with 30 and a
    deferred updater makes members of BETA 299 candidates that were not,
    and its toast reports 0. *)
Theorem assignRandomUsers_reports_zero :
  let r := handleAssignRandomUsers Deferred "k3x9q0a1z" 30 betaStore in
  live (segments betaStore) "k3x9q0a1z"
  ∧ length
      (newlyAdded "k3x9q0a1z" (userSegments betaStore) (userSegments r.1))
    = 299%nat
  ∧ r.2 = UsersAssigned 0 (Some "BETA") 30.
Proof.
  split; [by_evaluation|]. split; by vm_compute.
Qed.

(** X21: for a non-empty [segmentId] and a percentage in [0, 100], and
    whenever the updater runs, after [handleAssignRandomUsers] a candidate
    [userId] of 1..1000 is a member of [segmentId] exactly when
    [userId mod 100 < percentage]; with percentage 0 no candidate is a
    member, with 100 every candidate is. *)
Theorem assignRandomUsers_sets_membership scheduling segmentId percentage st :
  segmentId ≠ "" → 0 ≤ percentage ≤ 100 →
  let st' := (handleAssignRandomUsers scheduling segmentId percentage st).1 in
  (∀ userId, 1 ≤ userId ≤ 1000 →
     member (userSegments st') (JS.key_of userId) segmentId
     ↔ userId `mod` 100 < percentage)
  ∧ (percentage = 0 → ∀ userId, 1 ≤ userId ≤ 1000 →
       ¬ member (userSegments st') (JS.key_of userId) segmentId)
  ∧ (percentage = 100 → ∀ userId, 1 ≤ userId ≤ 1000 →
       member (userSegments st') (JS.key_of userId) segmentId).
Proof.
  intros Hs Hp st'.
  pose proof (λ u, handleAssignRandomUsers_candidate scheduling segmentId
                     percentage st u Hs Hp) as Hmem.
  fold st' in Hmem. split; [exact Hmem|]. split.
  - intros -> u Hu. rewrite (Hmem u Hu).
    pose proof (Z.mod_pos_bound u 100). lia.
  - intros -> u Hu. rewrite (Hmem u Hu).
    pose proof (Z.mod_pos_bound u 100). lia.
Qed.

Lemma assignRandomUsers_sets_membership_witness :
  let st' := (handleAssignRandomUsers Deferred "k3x9q0a1z" 30 betaStore).1 in
  "k3x9q0a1z" ≠ "" ∧ 0 ≤ 30 ≤ 100
  ∧ (∀ userId, 1 ≤ userId ≤ 1000 →
       member (userSegments st') (JS.key_of userId) "k3x9q0a1z"
       ↔ userId `mod` 100 < 30).
Proof.
  assert ("k3x9q0a1z" ≠ "") as Hne by discriminate.
  assert (0 ≤ 30 ≤ 100) as Hp by lia.
  split; [exact Hne|]. split; [exact Hp|].
  exact (proj1 (assignRandomUsers_sets_membership Deferred "k3x9q0a1z" 30
                  betaStore Hne Hp)).
Defined.

(** X22: the count in the toast of a valid call is 0 when the updater is
    deferred, whatever the call adds; when the updater is immediate it is
    the number of candidates that were not members before the call and
    are members after it. *)
Theorem assignRandomUsers_toast_count scheduling segmentId percentage st :
  segmentId ≠ "" → 0 ≤ percentage ≤ 100 →
  let r := handleAssignRandomUsers scheduling segmentId percentage st in
  ∃ segmentName,
    r.2 = UsersAssigned
            (match scheduling with
             | Deferred => 0%nat
             | Immediate =>
                 length (newlyAdded segmentId (userSegments st)
                           (userSegments r.1))
             end)
            segmentName percentage.
Proof.
  intros Hs Hp r.
  pose proof (λ u, handleAssignRandomUsers_candidate scheduling segmentId
                     percentage st u Hs Hp) as Hmem.
  fold r in Hmem. subst r.
  rewrite handleAssignRandomUsers_valid in * by done. cbn [fst snd] in *.
  eexists. f_equal. destruct scheduling; [done|].
  unfold assignLoop at 1.
  rewrite assignLoop_count by apply NoDup_allPossibleUserIds.
  cbn [plus]. f_equal. unfold newlyAdded.
  apply list_filter_iff_strong. intros u Hu.
  apply elem_of_allPossibleUserIds in Hu.
  rewrite (Hmem u Hu). unfold counted, member.
  rewrite rem_mod_candidate by lia. tauto.
Qed.

Lemma assignRandomUsers_toast_count_witness :
  let r := handleAssignRandomUsers Immediate "k3x9q0a1z" 30 betaStore in
  length (newlyAdded "k3x9q0a1z" (userSegments betaStore) (userSegments r.1))
  = 299%nat
  ∧ ∃ segmentName,
      r.2 = UsersAssigned
              (length (newlyAdded "k3x9q0a1z" (userSegments betaStore)
                         (userSegments r.1)))
              segmentName 30.
Proof.
  split; [by vm_compute|].
  apply (assignRandomUsers_toast_count Immediate "k3x9q0a1z" 30 betaStore);
    [discriminate|lia].
Defined.

(** The toast on the sample store with an immediate updater: 300
    candidates fall below 30, one of them ("1") is a member already. *)
Example assignRandomUsers_sample_count :
  (handleAssignRandomUsers Immediate "k3x9q0a1z" 30 betaStore).2
  = UsersAssigned 299 (Some "BETA") 30.
Proof. vm_compute. reflexivity. Qed.

(** C5: for a live, non-empty [segmentId] and a percentage in [0, 100],
    a second [handleAssignRandomUsers] with the same arguments leaves the
    state the first call produced and reports a count of 0, whenever the
    updaters of the two calls run. *)
Theorem assignRandomUsers_twice scheduling scheduling' segmentId percentage st :
  live (segments st) segmentId → segmentId ≠ "" → 0 ≤ percentage ≤ 100 →
  let once := handleAssignRandomUsers scheduling segmentId percentage st in
  let twice :=
    handleAssignRandomUsers scheduling' segmentId percentage once.1 in
  userSegments twice.1 = userSegments once.1
  ∧ twice.1 = once.1
  ∧ ∃ segmentName, twice.2 = UsersAssigned 0 segmentName percentage.
Proof.
  intros _ Hs Hp once twice. subst once twice.
  rewrite (handleAssignRandomUsers_valid scheduling segmentId percentage
        st) by done.
  cbn [fst].
  rewrite handleAssignRandomUsers_valid by done.
  cbn [fst snd segments userSegments].
  rewrite assignLoop_idemp by apply NoDup_allPossibleUserIds.
  cbn [fst snd]. split; [done|]. split; [done|].
  eexists. by destruct scheduling'.
Qed.

Lemma assignRandomUsers_twice_witness :
  let once := handleAssignRandomUsers Immediate "k3x9q0a1z" 30 betaStore in
  let twice := handleAssignRandomUsers Immediate "k3x9q0a1z" 30 once.1 in
  userSegments twice.1 = userSegments once.1
  ∧ twice.1 = once.1
  ∧ ∃ segmentName, twice.2 = UsersAssigned 0 segmentName 30.
Proof.
  apply (assignRandomUsers_twice Immediate Immediate "k3x9q0a1z" 30 betaStore).
  - vm_compute. by left.
  - discriminate.
  - lia.
Defined.

(** C10: whatever the segment id, the percentage and the scheduling,
    [handleAssignRandomUsers] keeps, for every user key, the membership in
    every segment other than [segmentId], and keeps the whole entry of
    every key that is not the numeral of a candidate 1..1000. *)
Theorem assignRandomUsers_frame scheduling segmentId percentage st userId
    otherId k :
  otherId ≠ segmentId →
  (∀ u, 1 ≤ u ≤ 1000 → k ≠ JS.key_of u) →
  let st' := (handleAssignRandomUsers scheduling segmentId percentage st).1 in
  (member (userSegments st') userId otherId
   ↔ member (userSegments st) userId otherId)
  ∧ userSegments st' !! k = userSegments st !! k
  ∧ segments st' = segments st.
Proof.
  intros Hother Hk st'. subst st'. split; [|split].
  - by apply handleAssignRandomUsers_other_segments.
  - by apply handleAssignRandomUsers_other_keys.
  - apply handleAssignRandomUsers_segments.
Qed.

(** A number outside 1..1000 has a key that no candidate has. *)
Lemma key_of_outside n :
  ¬ 1 ≤ n ≤ 1000 → ∀ u, 1 ≤ u ≤ 1000 → JS.key_of n ≠ JS.key_of u.
Proof. intros Hn u Hu Heq. apply (inj _) in Heq. lia. Qed.

(** A key that is not among the thousand numerals. *)
Lemma key_not_candidate k :
  k ∉ JS.key_of <$> allPossibleUserIds → ∀ u, 1 ≤ u ≤ 1000 → k ≠ JS.key_of u.
Proof.
  intros Hk u Hu ->. apply Hk. apply list_elem_of_fmap_2.
  by apply elem_of_allPossibleUserIds.
Qed.

Lemma assignRandomUsers_frame_witness :
  let st' := (handleAssignRandomUsers Deferred "k3x9q0a1z" 30 betaStore).1 in
  (member (userSegments st') "250" "other"
   ↔ member (userSegments betaStore) "250" "other")
  ∧ userSegments st' !! "anna" = userSegments betaStore !! "anna"
  ∧ segments st' = segments betaStore.
Proof.
  apply (assignRandomUsers_frame Deferred "k3x9q0a1z" 30 betaStore "250"
           "other" "anna").
  - discriminate.
  - apply key_not_candidate. by_evaluation.
Defined.

(** ** Adding and removing one membership *)

Lemma handleAddUserToSegment_invalid userId segmentId st :
  userId = "" ∨ segmentId = "" →
  handleAddUserToSegment userId segmentId st = (st, NeedUserAndSegment).
Proof.
  intros H. unfold handleAddUserToSegment.
  destruct H as [->| ->]; [done|]. by rewrite orb_true_r.
Qed.

Lemma handleAddUserToSegment_valid userId segmentId st :
  userId ≠ "" → segmentId ≠ "" →
  handleAddUserToSegment userId segmentId st
  = (mkState (segments st)
       (if decide (segmentId ∈ JS.get_or_empty (userSegments st) userId)
        then userSegments st
        else <[userId := JS.get_or_empty (userSegments st) userId ++ [segmentId]]>
               (userSegments st)),
     UserAdded userId).
Proof.
  intros Hu Hs. unfold handleAddUserToSegment, setUserSegments, JS.includes.
  rewrite (proj2 (falsy_false _) Hu), (proj2 (falsy_false _) Hs). cbn [orb].
  by destruct (decide _); [rewrite bool_decide_eq_true_2|rewrite bool_decide_eq_false_2].
Qed.

Lemma handleRemoveUserFromSegment_invalid userId segmentId st :
  userId = "" ∨ segmentId = "" →
  handleRemoveUserFromSegment userId segmentId st = (st, NeedUserAndSegment).
Proof.
  intros H. unfold handleRemoveUserFromSegment.
  destruct H as [->| ->]; [done|]. by rewrite orb_true_r.
Qed.

Lemma handleRemoveUserFromSegment_valid userId segmentId st :
  userId ≠ "" → segmentId ≠ "" →
  handleRemoveUserFromSegment userId segmentId st
  = (mkState (segments st)
       (match filter (λ id, id ≠ segmentId)
                (JS.get_or_empty (userSegments st) userId) with
        | [] => delete userId (userSegments st)
        | newSegments => <[userId := newSegments]> (userSegments st)
        end),
     UserRemoved userId).
Proof.
  intros Hu Hs. unfold handleRemoveUserFromSegment, setUserSegments.
  rewrite (proj2 (falsy_false _) Hu), (proj2 (falsy_false _) Hs). cbn [orb].
  by destruct (filter _ _).
Qed.

Lemma empty_or_not (s : string) : s = "" ∨ s ≠ "".
Proof. destruct (decide (s = "")); tauto. Qed.

Lemma args_empty_or_not (userId segmentId : string) :
  (userId = "" ∨ segmentId = "") ∨ (userId ≠ "" ∧ segmentId ≠ "").
Proof.
  destruct (empty_or_not userId), (empty_or_not segmentId); tauto.
Qed.

(** The memberships after a valid add: the old ones and the new one. *)
Lemma handleAddUserToSegment_member userId segmentId st u s :
  userId ≠ "" → segmentId ≠ "" →
  member (userSegments (handleAddUserToSegment userId segmentId st).1) u s
  ↔ member (userSegments st) u s ∨ (u = userId ∧ s = segmentId).
Proof.
  intros Hu Hs. rewrite handleAddUserToSegment_valid by done.
  cbn [fst userSegments]. unfold member, JS.get_or_empty.
  destruct (decide _) as [Hin|Hout].
  - split; [tauto|]. intros [?|[-> ->]]; done.
  - destruct (decide (u = userId)) as [->|Hne].
    + rewrite lookup_insert_eq. simpl.
      rewrite elem_of_app, list_elem_of_singleton. tauto.
    + rewrite lookup_insert_ne by done. tauto.
Qed.

(** The memberships after a valid remove: the old ones but the removed. *)
Lemma handleRemoveUserFromSegment_member userId segmentId st u s :
  userId ≠ "" → segmentId ≠ "" →
  member (userSegments (handleRemoveUserFromSegment userId segmentId st).1) u s
  ↔ member (userSegments st) u s ∧ ¬ (u = userId ∧ s = segmentId).
Proof.
  intros Hu Hs. rewrite handleRemoveUserFromSegment_valid by done.
  cbn [fst userSegments]. unfold member, JS.get_or_empty.
  destruct (decide (u = userId)) as [->|Hne].
  - destruct (filter _ _) as [|x l] eqn:E.
    + rewrite lookup_delete_eq. simpl. split.
      * intros H. by apply elem_of_nil in H.
      * intros [Hin Hn]. exfalso.
        assert (s ∈ filter (λ id, id ≠ segmentId)
                      (default [] (userSegments st !! userId))) as Hf.
        { apply list_elem_of_filter. split; [|done]. intros ->. tauto. }
        rewrite E in Hf. by apply elem_of_nil in Hf.
    + rewrite lookup_insert_eq. simpl. rewrite <-E.
      rewrite list_elem_of_filter. split.
      * intros [? ?]. split; [done|]. intros [_ ?]. done.
      * intros [? Hn]. split; [|done]. intros ->. tauto.
  - destruct (filter _ _);
      rewrite ?lookup_delete_ne, ?lookup_insert_ne by done; tauto.
Qed.

(** C8: a second [handleAddUserToSegment] with the same arguments gives
    the state (and the toast) of the first, and so does a second
    [handleRemoveUserFromSegment]. *)
Theorem add_remove_idempotent userId segmentId st :
  handleAddUserToSegment userId segmentId
    (handleAddUserToSegment userId segmentId st).1
  = handleAddUserToSegment userId segmentId st
  ∧ handleRemoveUserFromSegment userId segmentId
      (handleRemoveUserFromSegment userId segmentId st).1
    = handleRemoveUserFromSegment userId segmentId st.
Proof.
  destruct (args_empty_or_not userId segmentId) as [Hbad|[Hu Hs]].
  { by rewrite !handleAddUserToSegment_invalid,
      !handleRemoveUserFromSegment_invalid by done. }
  split.
  - rewrite (handleAddUserToSegment_valid userId segmentId st) by done.
    cbn [fst]. rewrite handleAddUserToSegment_valid by done.
    cbn [segments userSegments]. f_equal. f_equal.
    destruct (decide (segmentId ∈ JS.get_or_empty (userSegments st) userId))
      as [Hin|Hout].
    + by rewrite decide_True by done.
    + rewrite decide_True; [done|].
      unfold JS.get_or_empty at 1. rewrite lookup_insert_eq. simpl.
      rewrite elem_of_app, list_elem_of_singleton. tauto.
  - rewrite (handleRemoveUserFromSegment_valid userId segmentId st) by done.
    cbn [fst]. rewrite handleRemoveUserFromSegment_valid by done.
    cbn [segments userSegments]. f_equal. f_equal.
    destruct (filter _ (JS.get_or_empty (userSegments st) userId))
      as [|x l] eqn:E.
    + unfold JS.get_or_empty at 1. rewrite lookup_delete_eq. simpl.
      by rewrite delete_delete_eq.
    + unfold JS.get_or_empty at 1. rewrite lookup_insert_eq. simpl.
      rewrite <-E, filter_ne_idemp, E. by rewrite insert_insert_eq.
Qed.

(** C7: when [userId] is not yet a member of [segmentId] and its key does
    not hold an empty set, [handleAddUserToSegment] followed by
    [handleRemoveUserFromSegment] with the same arguments gives back the
    starting state, and the key of [userId] is absent afterwards if the
    user had no other membership. *)
Theorem add_then_remove_restores userId segmentId st :
  ¬ member (userSegments st) userId segmentId →
  userSegments st !! userId ≠ Some [] →
  let st' :=
    (handleRemoveUserFromSegment userId segmentId
       (handleAddUserToSegment userId segmentId st).1).1 in
  st' = st
  ∧ userSegments st' = userSegments st
  ∧ ((∀ t, member (userSegments st) userId t → t = segmentId) →
     userSegments st' !! userId = None).
Proof.
  intros Hnew Hne st'.
  assert (st' = st) as Hst'.
  { subst st'.
    destruct (args_empty_or_not userId segmentId) as [Hbad|[Hu Hs]].
    { by rewrite handleAddUserToSegment_invalid,
        handleRemoveUserFromSegment_invalid by done. }
    rewrite handleAddUserToSegment_valid by done. cbn [fst].
    rewrite handleRemoveUserFromSegment_valid by done.
    cbn [fst segments userSegments].
    destruct st as [segs m]. cbn [segments userSegments] in *. f_equal.
    unfold member in Hnew. rewrite decide_False by done.
    unfold JS.get_or_empty at 1. rewrite lookup_insert_eq. simpl.
    rewrite filter_app, (filter_ne_absent _ _ Hnew).
    rewrite filter_cons_False, filter_nil, app_nil_r by tauto.
    unfold JS.get_or_empty in *.
    destruct (m !! userId) as [[|x l]|] eqn:E; simpl; try done.
    - rewrite insert_insert_eq. by apply insert_id.
    - rewrite delete_insert_eq. by apply delete_id. }
  rewrite Hst'. split; [done|]. split; [done|].
  intros Honly. unfold member, JS.get_or_empty in *.
  destruct (userSegments st !! userId) as [[|x l]|]; simpl in *; try done.
  exfalso. apply Hnew. rewrite <-(Honly x); by left.
Qed.

Lemma add_then_remove_restores_witness :
  let st' :=
    (handleRemoveUserFromSegment "42" "k3x9q0a1z"
       (handleAddUserToSegment "42" "k3x9q0a1z" betaStore).1).1 in
  st' = betaStore
  ∧ userSegments st' = userSegments betaStore
  ∧ userSegments st' !! "42" = None.
Proof.
  assert (¬ member (userSegments betaStore) "42" "k3x9q0a1z") as Hnew.
  { by_evaluation. }
  assert (userSegments betaStore !! "42" ≠ Some []) as Hne
    by (vm_compute; discriminate).
  destruct (add_then_remove_restores "42" "k3x9q0a1z" betaStore Hnew Hne)
    as (H1 & H2 & H3).
  split; [exact H1|]. split; [exact H2|].
  apply H3. intros t Ht. exfalso. revert Ht.
  by_evaluation.
Defined.

(** C7, as the claim states it: user 42 is a member of BETA already, the
    add changes nothing and the remove then drops the membership and the
    key. *)
Lemma add_then_remove_member_counterexample :
  let st' :=
    (handleRemoveUserFromSegment "42" "k3x9q0a1z"
       (handleAddUserToSegment "42" "k3x9q0a1z" memberStore).1).1 in
  userSegments memberStore = {[ "42" := ["k3x9q0a1z"] ]}
  ∧ userSegments st' = ∅
  ∧ userSegments st' ≠ userSegments memberStore.
Proof.
  split; [reflexivity|]. split; [by vm_compute|].
  intros H. apply (f_equal (λ m, m !! "42")) in H. vm_compute in H.
  discriminate.
Qed.

(** Whether or not the user was a member, the key is absent after a valid
    add and remove when the user had no other membership. *)
Lemma add_then_remove_key_absent userId segmentId st :
  userId ≠ "" → segmentId ≠ "" →
  (∀ t, member (userSegments st) userId t → t = segmentId) →
  userSegments
    (handleRemoveUserFromSegment userId segmentId
       (handleAddUserToSegment userId segmentId st).1).1 !! userId = None.
Proof.
  intros Hu Hs Honly.
  destruct (userSegments _ !! userId) as [l|] eqn:E; [exfalso|done].
  set (st1 := (handleAddUserToSegment userId segmentId st).1) in *.
  rewrite handleRemoveUserFromSegment_valid in E by done.
  cbn [fst userSegments] in E.
  destruct (filter _ _) as [|x f] eqn:Ef.
  { by rewrite lookup_delete_eq in E. }
  assert (x ∈ filter (λ id, id ≠ segmentId)
                (JS.get_or_empty (userSegments st1) userId)) as Hx
    by (rewrite Ef; by left).
  apply list_elem_of_filter in Hx as [Hxs Hx].
  apply (handleAddUserToSegment_member userId segmentId st userId x Hu Hs)
    in Hx as [Hx|[_ ?]]; [|done].
  apply Hxs. by apply Honly.
Qed.

(** C1: for a [segmentId] that is the id of no segment,
    [handleAddUserToSegment] never fails with [NotFoundError]: with an
    empty [userId] or [segmentId] it fails with [ValidationError] and
    changes nothing; otherwise it reports success and makes [userId] a
    member of [segmentId], every other membership staying as it was. *)
Theorem addUserToSegment_dead_segment userId segmentId st :
  ¬ live (segments st) segmentId →
  let r := handleAddUserToSegment userId segmentId st in
  ¬ fails_with NotFoundError r.2
  ∧ segments r.1 = segments st
  ∧ (userId = "" ∨ segmentId = "" →
     fails_with ValidationError r.2 ∧ r.1 = st)
  ∧ (userId ≠ "" → segmentId ≠ "" →
     r.2 = UserAdded userId
     ∧ member (userSegments r.1) userId segmentId
     ∧ ∀ u s, member (userSegments r.1) u s
              ↔ member (userSegments st) u s ∨ (u = userId ∧ s = segmentId)).
Proof.
  intros _ r. subst r.
  destruct (args_empty_or_not userId segmentId) as [Hbad|[Hu Hs]].
  - rewrite handleAddUserToSegment_invalid by done. cbn [fst snd].
    split; [done|]. split; [done|]. split; [done|]. tauto.
  - split; [|split; [|split]].
    + by rewrite handleAddUserToSegment_valid by done.
    + by rewrite handleAddUserToSegment_valid by done.
    + tauto.
    + intros _ _. split; [by rewrite handleAddUserToSegment_valid by done|].
      split.
      * apply handleAddUserToSegment_member; tauto.
      * intros u s. by apply handleAddUserToSegment_member.
Qed.

Lemma addUserToSegment_dead_segment_witness :
  ¬ live (segments initialState) "ghost"
  ∧ let r := handleAddUserToSegment "42" "ghost" initialState in
    ¬ fails_with NotFoundError r.2
    ∧ r.2 = UserAdded "42"
    ∧ member (userSegments r.1) "42" "ghost".
Proof.
  assert (¬ live (segments initialState) "ghost") as Hdead.
  { by_evaluation. }
  split; [exact Hdead|].
  destruct (addUserToSegment_dead_segment "42" "ghost" initialState Hdead)
    as (H1 & _ & _ & H4).
  split; [exact H1|].
  destruct H4 as (H5 & H6 & _); [discriminate|discriminate|].
  split; [exact H5|exact H6].
Defined.

(** C1, as the claim states it: no segment has the id "ghost", yet the
    add succeeds and the membership index changes. *)
Lemma addUserToSegment_dead_segment_counterexample :
  let r := handleAddUserToSegment "42" "ghost" initialState in
  ¬ live (segments initialState) "ghost"
  ∧ r.2 = UserAdded "42"
  ∧ ¬ fails_with NotFoundError r.2
  ∧ userSegments r.1 = {[ "42" := ["ghost"] ]}
  ∧ userSegments r.1 ≠ userSegments initialState.
Proof.
  split.
  { by_evaluation. }
  split; [reflexivity|]. split; [discriminate|]. split; [by vm_compute|].
  intros H. apply (f_equal (λ m, m !! "42")) in H. vm_compute in H.
  discriminate.
Qed.

(** No handler ever reports a missing segment. *)
Lemma error_kind_never_not_found n : ¬ fails_with NotFoundError n.
Proof. unfold fails_with. by destruct n. Qed.

(** ** Deleting a segment *)

Lemma cascadeStep_lookup id userId segs newState k :
  cascadeStep id userId segs newState !! k
  = if decide (k = userId) then cascadeValue id segs else newState !! k.
Proof.
  unfold cascadeStep, cascadeValue.
  destruct (decide (k = userId)) as [->|Hk]; case_bool_decide;
    rewrite ?lookup_delete_eq, ?lookup_insert_eq,
      ?lookup_delete_ne, ?lookup_insert_ne by done;
    done.
Qed.

Lemma cascadeDelete_lookup id prev k :
  cascadeDelete id prev !! k = prev !! k ≫= cascadeValue id.
Proof.
  unfold cascadeDelete. revert k.
  apply (map_fold_weak_ind
           (λ r m, ∀ k, r !! k = m !! k ≫= cascadeValue id)).
  - intros k. by rewrite !lookup_empty.
  - intros i x m r Hi IH k. rewrite cascadeStep_lookup.
    destruct (decide (k = i)) as [->|Hk].
    + by rewrite lookup_insert_eq.
    + by rewrite lookup_insert_ne, IH by done.
Qed.

Lemma cascadeValue_Some id segs l :
  cascadeValue id segs = Some l →
  l = filter (λ segmentId, segmentId ≠ id) segs ∧ l ≠ [].
Proof.
  unfold cascadeValue. case_bool_decide as Hlen; [done|].
  intros [= <-]. split; [done|]. intros H. by rewrite H in Hlen.
Qed.

Lemma cascadeDelete_member id prev u s :
  member (cascadeDelete id prev) u s ↔ member prev u s ∧ s ≠ id.
Proof.
  unfold member, JS.get_or_empty. rewrite cascadeDelete_lookup.
  destruct (prev !! u) as [segs|]; simpl.
  - unfold cascadeValue. case_bool_decide as Hlen; simpl.
    + apply length_zero_nil in Hlen. split.
      * intros H. by apply elem_of_nil in H.
      * intros [Hin Hne]. exfalso.
        assert (s ∈ filter (λ segmentId, segmentId ≠ id) segs) as Hf
          by (by apply list_elem_of_filter).
        rewrite Hlen in Hf. by apply elem_of_nil in Hf.
    + rewrite list_elem_of_filter. tauto.
  - split; [|tauto]. intros H. by apply elem_of_nil in H.
Qed.

Lemma cascadeDelete_no_empty_sets id prev : no_empty_sets (cascadeDelete id prev).
Proof.
  intros u. rewrite cascadeDelete_lookup.
  destruct (prev !! u) as [segs|]; simpl; [|done].
  intros H. by apply cascadeValue_Some in H as [_ ?].
Qed.

Lemma handleLookup_elem segs m userId s :
  s ∈ handleLookup segs m userId →
  s ∈ segs ∧ member m userId (Segment.id s).
Proof.
  unfold handleLookup, member.
  destruct (JS.falsy userId); [intros Hs; by apply elem_of_nil in Hs|].
  case_bool_decide; [intros Hs; by apply elem_of_nil in Hs|].
  rewrite list_elem_of_filter. tauto.
Qed.

(** C6: after a confirmed [handleDeleteSegment] of [id], no membership set
    contains [id], no key holds an empty set, and [handleLookup] returns no
    segment with that id, whichever user is looked up. *)
Theorem deleteSegment_cascades id name st :
  let st' := (handleDeleteSegment true id name st).1 in
  (∀ userId, ¬ member (userSegments st') userId id)
  ∧ no_empty_sets (userSegments st')
  ∧ ¬ live (segments st') id
  ∧ ∀ userId s,
      s ∈ handleLookup (segments st') (userSegments st') userId →
      Segment.id s ≠ id.
Proof.
  intros st'. subst st'. cbn [handleDeleteSegment fst].
  unfold setUserSegments, setSegments. cbn [segments userSegments].
  assert (∀ s, s ∈ filter (λ s, Segment.id s ≠ id) (segments st) →
               Segment.id s ≠ id) as Hseg
    by (intros s Hs; by apply list_elem_of_filter in Hs as [? _]).
  split; [|split; [|split]].
  - intros userId Hm. apply cascadeDelete_member in Hm. tauto.
  - apply cascadeDelete_no_empty_sets.
  - unfold live. change (map ?f ?l) with (f <$> l).
    intros Hin. apply list_elem_of_fmap in Hin as (s & Heq & Hs).
    by apply Hseg in Hs.
  - intros userId s Hs. apply handleLookup_elem in Hs as [Hs _].
    by apply Hseg.
Qed.

(** The scenario of the specification, from the empty stores: BETA is
    created, user 42 is added to it and looked up. *)
Example createSegment_addUser_scenario :
  let st1 :=
    run (CreateSegment "k3x9q0a1z" "2024-01-01T00:00:00.000Z" " BETA "
           "Beta testers ") initialState in
  let st2 := run (AddUserToSegment "42" "k3x9q0a1z") st1 in
  st2 = memberStore
  ∧ handleLookup (segments st2) (userSegments st2) "42" = [betaSegment]
  ∧ handleLookup (segments st2) (userSegments st2) "43" = [].
Proof. split; [by vm_compute|]. split; by vm_compute. Qed.

(** The scenario of the specification: user 42 is looked up before and
    after BETA is deleted. *)
Example deleteSegment_lookup_scenario :
  handleLookup (segments memberStore) (userSegments memberStore) "42"
  = [betaSegment]
  ∧ (let st' := (handleDeleteSegment true "k3x9q0a1z" "BETA" memberStore).1 in
     handleLookup (segments st') (userSegments st') "42" = []
     ∧ userSegments st' = ∅).
Proof. split; [by vm_compute|]. split; by vm_compute. Qed.

(** ** Creating and updating a segment *)

Lemma handleCreateSegment_cases newId now name description st :
  let r := handleCreateSegment newId now name description st in
  r.1 = st
  ∨ r = (mkState
           (segments st
            ++ [Segment.mk newId (JS.trim name) (JS.trim description) now now])
           (userSegments st),
         SegmentCreated name).
Proof.
  unfold handleCreateSegment.
  destruct (JS.falsy _); [by left|]. destruct (existsb _ _); [by left|].
  by right.
Qed.

Lemma existsb_elem_of {A} (f : A → bool) (l : list A) :
  existsb f l = true ↔ ∃ x, x ∈ l ∧ f x = true.
Proof.
  rewrite existsb_exists. by setoid_rewrite list_elem_of_In.
Qed.

(** The duplicate check of [handleCreateSegment] compares the name as it
    was typed. *)
Lemma handleCreateSegment_name_as_typed newId now name description st s :
  JS.trim name ≠ "" → s ∈ segments st → Segment.name s = name →
  handleCreateSegment newId now name description st = (st, NameExists name).
Proof.
  intros Hne Hs Hname. unfold handleCreateSegment.
  rewrite (proj2 (falsy_false _) Hne).
  rewrite (proj2 (existsb_elem_of _ _)); [done|].
  exists s. split; [done|]. by apply bool_decide_eq_true.
Qed.

Lemma handleUpdateSegment_ids now id newName newDescription st :
  let r := handleUpdateSegment now id newName newDescription st in
  map Segment.id (segments r.1) = map Segment.id (segments st)
  ∧ userSegments r.1 = userSegments st.
Proof.
  unfold handleUpdateSegment.
  destruct (JS.falsy _); [done|]. destruct (existsb _ _); [done|].
  cbn [fst]. unfold setSegments. cbn [segments userSegments].
  split; [|done]. rewrite map_map. apply map_ext.
  intros s. by case_bool_decide.
Qed.

Lemma map_update_dead (f : Segment.t → Segment.t) id (segs : list Segment.t) :
  ¬ live segs id →
  map (λ s, if bool_decide (Segment.id s = id) then f s else s) segs = segs.
Proof.
  unfold live. induction segs as [|s segs IH]; [done|].
  cbn [map]. intros Hdead. apply not_elem_of_cons in Hdead as [Hs Hdead].
  rewrite bool_decide_eq_false_2 by congruence. by rewrite IH.
Qed.

(** With an [id] that no segment has, the store is left as it was,
    whatever the name. *)
Lemma handleUpdateSegment_dead_unchanged now id newName newDescription st :
  ¬ live (segments st) id →
  (handleUpdateSegment now id newName newDescription st).1 = st.
Proof.
  intros Hdead. unfold handleUpdateSegment.
  destruct (JS.falsy _); [done|]. destruct (existsb _ _); [done|].
  cbn [fst]. destruct st as [segs m]. unfold setSegments.
  cbn [segments userSegments] in *. f_equal.
  by apply (map_update_dead (λ s, Segment.mk _ _ _ _ _)).
Qed.

(** C9: for an [id] that no segment has, and a [newName] that is not
    empty once trimmed and is the name of no other segment,
    [handleUpdateSegment] does not fail with [NotFoundError]: it reports
    the update as successful, and the store is left as it was. *)
Theorem updateSegment_dead_id now id newName newDescription st :
  ¬ live (segments st) id →
  JS.trim newName ≠ "" →
  (∀ s, s ∈ segments st → Segment.id s ≠ id → Segment.name s ≠ newName) →
  let r := handleUpdateSegment now id newName newDescription st in
  r = (st, SegmentUpdated newName)
  ∧ is_error r.2 = false
  ∧ ¬ fails_with NotFoundError r.2.
Proof.
  intros Hdead Hne Hdup r.
  assert (r = (st, SegmentUpdated newName)) as ->; [|done].
  subst r. rewrite (surjective_pairing (handleUpdateSegment _ _ _ _ _)).
  rewrite handleUpdateSegment_dead_unchanged by done. f_equal.
  unfold handleUpdateSegment. rewrite (proj2 (falsy_false _) Hne).
  destruct (existsb _ _) eqn:E; [exfalso|done].
  apply existsb_elem_of in E as (s & Hs & Hc).
  apply andb_true_iff in Hc as [Hn Hi].
  apply bool_decide_eq_true in Hn. apply negb_true_iff in Hi.
  apply bool_decide_eq_false in Hi. by apply (Hdup s).
Qed.

Lemma updateSegment_dead_id_witness :
  let r := handleUpdateSegment "2024-02-02T00:00:00.000Z" "ghost" "B" ""
             namedStore in
  r = (namedStore, SegmentUpdated "B")
  ∧ is_error r.2 = false
  ∧ ¬ fails_with NotFoundError r.2.
Proof.
  apply (updateSegment_dead_id "2024-02-02T00:00:00.000Z" "ghost" "B" ""
           namedStore).
  - by_evaluation.
  - vm_compute. discriminate.
  - intros s Hs _. apply list_elem_of_singleton in Hs. subst s. discriminate.
Defined.

(** C9, as the claim states it: no segment has the id "ghost" and "B" is
    a fresh name, yet the call reports success and no [NotFoundError]. *)
Lemma updateSegment_dead_id_counterexample :
  let r := handleUpdateSegment "2024-02-02T00:00:00.000Z" "ghost" "B" ""
             namedStore in
  ¬ live (segments namedStore) "ghost"
  ∧ r.2 = SegmentUpdated "B"
  ∧ is_error r.2 = false
  ∧ ¬ fails_with NotFoundError r.2.
Proof.
  split.
  { by_evaluation. }
  split; [by vm_compute|]. split; [by vm_compute|].
  vm_compute. discriminate.
Qed.

(** C3: the store holds a segment named "A"; creating " A", whose trimmed
    name is "A", is not refused: a second segment named "A" is appended. *)
Theorem createSegment_untrimmed_duplicate :
  let r := handleCreateSegment "m4n5b6v7c" "2024-02-02T00:00:00.000Z" " A" ""
             namedStore in
  map Segment.name (segments namedStore) = ["A"]
  ∧ JS.trim " A" = "A"
  ∧ r.2 = SegmentCreated " A"
  ∧ ¬ fails_with DuplicateNameError r.2
  ∧ map Segment.name (segments r.1) = ["A"; "A"]
  ∧ ¬ names_unique (segments r.1).
Proof.
  split; [reflexivity|]. split; [by vm_compute|]. split; [by vm_compute|].
  split; [vm_compute; discriminate|]. split; [by vm_compute|].
  unfold names_unique.
  assert (map Segment.name
            (segments
               (handleCreateSegment "m4n5b6v7c" "2024-02-02T00:00:00.000Z"
                  " A" "" namedStore).1) = ["A"; "A"]) as -> by by vm_compute.
  intros Hnd. apply NoDup_cons in Hnd as [Hnd _]. apply Hnd. by left.
Qed.

(** ** Membership sets refer to live segments *)

Lemma live_app segs segs' segmentId :
  live segs segmentId → live (segs ++ segs') segmentId.
Proof. unfold live. rewrite map_app, elem_of_app. tauto. Qed.

Lemma live_filter_ne segs id segmentId :
  live segs segmentId → segmentId ≠ id →
  live (filter (λ s, Segment.id s ≠ id) segs) segmentId.
Proof.
  unfold live. change (map ?f ?l) with (f <$> l).
  rewrite !list_elem_of_fmap. intros (s & -> & Hs) Hne.
  exists s. split; [done|]. by apply list_elem_of_filter.
Qed.

Lemma create_keeps_memberships_live newId now name description st :
  memberships_live st →
  memberships_live (handleCreateSegment newId now name description st).1.
Proof.
  intros Hinv.
  destruct (handleCreateSegment_cases newId now name description st)
    as [->| ->]; [done|].
  intros u s Hm. cbn [fst segments userSegments] in *.
  apply live_app. by apply (Hinv u).
Qed.

Lemma update_keeps_memberships_live now id newName newDescription st :
  memberships_live st →
  memberships_live (handleUpdateSegment now id newName newDescription st).1.
Proof.
  intros Hinv.
  destruct (handleUpdateSegment_ids now id newName newDescription st)
    as [Hids Hm].
  intros u s. unfold live. rewrite Hids, Hm. apply Hinv.
Qed.

Lemma delete_keeps_memberships_live confirmed id name st :
  memberships_live st →
  memberships_live (handleDeleteSegment confirmed id name st).1.
Proof.
  intros Hinv. destruct confirmed; [|done].
  intros u s Hm. cbn [handleDeleteSegment fst] in *.
  unfold setUserSegments, setSegments in *.
  cbn [segments userSegments] in *.
  apply cascadeDelete_member in Hm as [Hm Hne].
  apply live_filter_ne; [|done]. by apply (Hinv u).
Qed.

Lemma add_keeps_memberships_live userId segmentId st :
  memberships_live st → live (segments st) segmentId →
  memberships_live (handleAddUserToSegment userId segmentId st).1.
Proof.
  intros Hinv Htarget.
  destruct (args_empty_or_not userId segmentId) as [Hbad|[Hu Hs]].
  { by rewrite handleAddUserToSegment_invalid by done. }
  intros u s Hm.
  assert (segments (handleAddUserToSegment userId segmentId st).1
          = segments st) as ->
    by (by rewrite handleAddUserToSegment_valid by done).
  apply handleAddUserToSegment_member in Hm as [Hm|[_ ->]]; [|done..].
  by apply (Hinv u).
Qed.

Lemma remove_keeps_memberships_live userId segmentId st :
  memberships_live st →
  memberships_live (handleRemoveUserFromSegment userId segmentId st).1.
Proof.
  intros Hinv.
  destruct (args_empty_or_not userId segmentId) as [Hbad|[Hu Hs]].
  { by rewrite handleRemoveUserFromSegment_invalid by done. }
  intros u s Hm.
  assert (segments (handleRemoveUserFromSegment userId segmentId st).1
          = segments st) as ->
    by (by rewrite handleRemoveUserFromSegment_valid by done).
  apply handleRemoveUserFromSegment_member in Hm as [Hm _]; [|done..].
  by apply (Hinv u).
Qed.

Lemma assign_keeps_memberships_live scheduling segmentId percentage st :
  memberships_live st → live (segments st) segmentId →
  memberships_live
    (handleAssignRandomUsers scheduling segmentId percentage st).1.
Proof.
  intros Hinv Htarget u s Hm. rewrite handleAssignRandomUsers_segments.
  destruct (decide (s = segmentId)) as [->|Hne]; [done|].
  apply handleAssignRandomUsers_other_segments in Hm; [|done].
  by apply (Hinv u).
Qed.

#[global] Hint Resolve create_keeps_memberships_live
  update_keeps_memberships_live delete_keeps_memberships_live
  add_keeps_memberships_live remove_keeps_memberships_live
  assign_keeps_memberships_live : memberships.

Lemma memberships_live_initial : memberships_live initialState.
Proof.
  intros u s Hm. unfold member, JS.get_or_empty in Hm. cbn in Hm.
  by apply elem_of_nil in Hm.
Qed.

(** C2: the invariant that every id of every membership set is the id of
    a live segment is kept by each of the six operations, provided the
    segment that [handleAddUserToSegment] or [handleAssignRandomUsers] is
    given is live; it holds in every state reached from the empty stores
    by such operations. *)
Theorem memberships_live_preserved :
  (∀ op st,
     memberships_live st → target_live op st → memberships_live (run op st))
  ∧ (∀ st, reachable_live st → memberships_live st).
Proof.
  assert (∀ op st, memberships_live st → target_live op st →
                   memberships_live (run op st)) as Hstep.
  { intros op st Hinv Htarget.
    destruct op; cbn [run target_live] in *; auto with memberships. }
  split; [exact Hstep|].
  induction 1 as [|op st Hreach IH Htarget].
  - apply memberships_live_initial.
  - by apply Hstep.
Qed.

Lemma memberships_live_preserved_witness :
  let st1 :=
    run (CreateSegment "k3x9q0a1z" "2024-01-01T00:00:00.000Z" "BETA" "")
      initialState in
  reachable_live st1
  ∧ target_live (AddUserToSegment "42" "k3x9q0a1z") st1
  ∧ memberships_live st1
  ∧ memberships_live (run (AddUserToSegment "42" "k3x9q0a1z") st1).
Proof.
  intros st1.
  assert (reachable_live st1) as Hreach
    by (apply reachable_live_run; [apply reachable_live_initial|exact I]).
  assert (target_live (AddUserToSegment "42" "k3x9q0a1z") st1) as Htarget
    by by_evaluation.
  destruct memberships_live_preserved as [Hstep Hinv].
  split; [exact Hreach|]. split; [exact Htarget|].
  split; [exact (Hinv st1 Hreach)|].
  exact (Hstep _ st1 (Hinv st1 Hreach) Htarget).
Defined.

(** C2, as the claim states it: from the empty stores, adding user 42 to
    the id "ghost" reaches a state whose membership index names a segment
    that is not live. *)
Lemma memberships_live_counterexample :
  let st := run (AddUserToSegment "42" "ghost") initialState in
  memberships_live initialState
  ∧ reachable st
  ∧ member (userSegments st) "42" "ghost"
  ∧ ¬ live (segments st) "ghost"
  ∧ ¬ memberships_live st.
Proof.
  assert (member
            (userSegments (run (AddUserToSegment "42" "ghost") initialState))
            "42" "ghost") as Hm
    by by_evaluation.
  assert (¬ live (segments (run (AddUserToSegment "42" "ghost") initialState))
            "ghost") as Hdead
    by by_evaluation.
  split; [exact memberships_live_initial|].
  split; [apply reachable_run, reachable_initial|].
  split; [exact Hm|]. split; [exact Hdead|].
  intros Hinv. apply Hdead. by apply (Hinv "42").
Qed.

(** ** No key holds an empty set *)

Lemma assignLoop_no_empty_sets segmentId percentage cands m :
  NoDup cands → no_empty_sets m →
  no_empty_sets (assignLoop cands segmentId percentage m).1.
Proof.
  intros Hnd Hm k. unfold assignLoop.
  destruct (decide (k ∈ JS.key_of <$> cands)) as [Hin|Hout].
  - apply list_elem_of_fmap in Hin as (u & -> & Hu).
    rewrite assignLoop_lookup by done. apply assignValue_no_empty, Hm.
  - rewrite assignLoop_frame; [apply Hm|].
    intros u Hu ->. apply Hout. by apply list_elem_of_fmap_2.
Qed.

Lemma run_keeps_no_empty_sets op st :
  no_empty_sets (userSegments st) → no_empty_sets (userSegments (run op st)).
Proof.
  intros Hinv.
  destruct op as [newId now name description|now id newName newDescription
                 |confirmed id name|userId segmentId|userId segmentId
                 |scheduling segmentId percentage]; cbn [run].
  - by destruct (handleCreateSegment_cases newId now name description st)
      as [->| ->].
  - destruct (handleUpdateSegment_ids now id newName newDescription st)
      as [_ Hm]. by rewrite Hm.
  - destruct confirmed; [|done]. apply cascadeDelete_no_empty_sets.
  - destruct (args_empty_or_not userId segmentId) as [Hbad|[Hu Hs]].
    { by rewrite handleAddUserToSegment_invalid by done. }
    rewrite handleAddUserToSegment_valid by done. cbn [fst userSegments].
    destruct (decide _); [done|]. intros k.
    destruct (decide (k = userId)) as [->|Hk].
    + rewrite lookup_insert_eq. intros [= H].
      by apply app_eq_nil in H as [_ ?].
    + rewrite lookup_insert_ne by done. apply Hinv.
  - destruct (args_empty_or_not userId segmentId) as [Hbad|[Hu Hs]].
    { by rewrite handleRemoveUserFromSegment_invalid by done. }
    rewrite handleRemoveUserFromSegment_valid by done. cbn [fst userSegments].
    intros k. destruct (decide (k = userId)) as [->|Hk].
    + destruct (filter _ _); by rewrite ?lookup_delete_eq, ?lookup_insert_eq.
    + destruct (filter _ _);
        rewrite ?lookup_delete_ne, ?lookup_insert_ne by done; apply Hinv.
  - destruct (handleAssignRandomUsers_cases scheduling segmentId percentage st)
      as [->| ->]; [done|].
    cbn [userSegments].
    by apply assignLoop_no_empty_sets; [apply NoDup_allPossibleUserIds|].
Qed.

(** Every state reached from the empty stores keeps the index free of
    empty sets. *)
Lemma no_empty_sets_reachable st :
  reachable st → no_empty_sets (userSegments st).
Proof.
  induction 1 as [|op st Hreach IH].
  - intros k. cbn. by rewrite lookup_empty.
  - by apply run_keeps_no_empty_sets.
Qed.

(** * Further properties of the handlers *)

(** ** Trimming *)

Lemma chars_rev_app s1 s2 :
  list_ascii_of_string (String.rev_app s1 s2)
  = rev (list_ascii_of_string s1) ++ list_ascii_of_string s2.
Proof.
  revert s2. induction s1 as [|a s1 IH]; intros s2; [done|].
  cbn [String.rev_app list_ascii_of_string rev]. rewrite IH.
  cbn [list_ascii_of_string]. by rewrite <-app_assoc.
Qed.

Lemma chars_rev s :
  list_ascii_of_string (String.rev s) = rev (list_ascii_of_string s).
Proof. unfold String.rev. by rewrite chars_rev_app, app_nil_r. Qed.

Lemma chars_inj s1 s2 :
  list_ascii_of_string s1 = list_ascii_of_string s2 → s1 = s2.
Proof.
  intros H. apply (f_equal string_of_list_ascii) in H.
  by rewrite !string_of_list_ascii_of_string in H.
Qed.

Lemma rev_rev s : String.rev (String.rev s) = s.
Proof. apply chars_inj. by rewrite !chars_rev, rev_involutive. Qed.

Lemma trimStart_suffix s :
  ∃ w, list_ascii_of_string s = w ++ list_ascii_of_string (JS.trimStart s).
Proof.
  induction s as [|c s [w IH]]; [by exists []|].
  cbn [JS.trimStart]. destruct (JS.is_white_space c).
  - exists (c :: w). cbn. by rewrite IH.
  - by exists [].
Qed.

Lemma trimStart_clean s : starts_clean (JS.trimStart s).
Proof.
  induction s as [|c s IH]; [done|].
  cbn [JS.trimStart]. by destruct (JS.is_white_space c) eqn:E.
Qed.

Lemma trimStart_id s : starts_clean s → JS.trimStart s = s.
Proof. destruct s as [|c s]; [done|]. cbn. by intros ->. Qed.

(** Trimming the end of a string leaves its first character in place. *)
Lemma trimEnd_clean s : starts_clean s → starts_clean (JS.trimEnd s).
Proof.
  intros Hs. unfold JS.trimEnd.
  destruct (trimStart_suffix (String.rev s)) as [w Hw].
  rewrite chars_rev in Hw. apply (f_equal (@rev ascii)) in Hw.
  rewrite rev_involutive, rev_app_distr, <-chars_rev in Hw.
  destruct (String.rev (JS.trimStart (String.rev s))) as [|c r]; [done|].
  destruct s as [|c' s']; [done|]. cbn in Hw. by injection Hw as -> _.
Qed.

Lemma trim_starts_clean s : starts_clean (JS.trim s).
Proof. apply trimEnd_clean, trimStart_clean. Qed.

Lemma trim_ends_clean s : starts_clean (String.rev (JS.trim s)).
Proof.
  unfold JS.trim, JS.trimEnd. rewrite rev_rev. apply trimStart_clean.
Qed.

Lemma trim_idemp s : JS.trim (JS.trim s) = JS.trim s.
Proof.
  unfold JS.trim at 1. rewrite (trimStart_id _ (trim_starts_clean s)).
  unfold JS.trimEnd. by rewrite (trimStart_id _ (trim_ends_clean s)), rev_rev.
Qed.

(** ** The outcomes of creating and updating *)

Lemma existsb_false_elem_of {A} (f : A → bool) (l : list A) :
  existsb f l = false ↔ ∀ x, x ∈ l → f x = false.
Proof.
  split.
  - intros E x Hx. destruct (f x) eqn:Hf; [|done].
    rewrite <-E. symmetry. apply existsb_elem_of. eauto.
  - intros H. destruct (existsb f l) eqn:E; [|done].
    apply existsb_elem_of in E as (x & Hx & Hf). by rewrite (H x Hx) in Hf.
Qed.

(** The three ways [handleCreateSegment] ends. *)
Lemma handleCreateSegment_inv newId now name description st :
  let r := handleCreateSegment newId now name description st in
  (JS.trim name = "" ∧ r = (st, EmptyName))
  ∨ (JS.trim name ≠ "" ∧ (∃ s, s ∈ segments st ∧ Segment.name s = name)
     ∧ r = (st, NameExists name))
  ∨ (JS.trim name ≠ "" ∧ (∀ s, s ∈ segments st → Segment.name s ≠ name)
     ∧ r = (mkState
              (segments st
               ++ [Segment.mk newId (JS.trim name) (JS.trim description)
                     now now])
              (userSegments st),
            SegmentCreated name)).
Proof.
  unfold handleCreateSegment.
  destruct (JS.falsy (JS.trim name)) eqn:Ef.
  { left. by apply falsy_true in Ef. }
  apply falsy_false in Ef. right.
  destruct (existsb _ _) eqn:E.
  - left. apply existsb_elem_of in E as (s & Hs & Hn).
    apply bool_decide_eq_true in Hn.
    split; [done|]. split; [by exists s|done].
  - right. split; [done|]. split; [|done]. intros s Hs.
    pose proof (proj1 (existsb_false_elem_of _ _) E s Hs) as Hn.
    by apply bool_decide_eq_false in Hn.
Qed.

(** The three ways [handleUpdateSegment] ends. *)
Lemma handleUpdateSegment_inv now id newName newDescription st :
  let r := handleUpdateSegment now id newName newDescription st in
  (JS.trim newName = "" ∧ r = (st, EmptyName))
  ∨ (JS.trim newName ≠ ""
     ∧ (∃ s, s ∈ segments st ∧ Segment.name s = newName ∧ Segment.id s ≠ id)
     ∧ r = (st, NameExists newName))
  ∨ (JS.trim newName ≠ ""
     ∧ (∀ s, s ∈ segments st → Segment.name s = newName → Segment.id s = id)
     ∧ r = (mkState
              (map (λ s, if bool_decide (Segment.id s = id)
                         then updatedSegment now newName newDescription s
                         else s)
                 (segments st))
              (userSegments st),
            SegmentUpdated newName)).
Proof.
  unfold handleUpdateSegment.
  destruct (JS.falsy (JS.trim newName)) eqn:Ef.
  { left. by apply falsy_true in Ef. }
  apply falsy_false in Ef. right.
  destruct (existsb _ _) eqn:E.
  - left. apply existsb_elem_of in E as (s & Hs & Hc).
    apply andb_true_iff in Hc as [Hn Hi].
    apply bool_decide_eq_true in Hn. apply negb_true_iff in Hi.
    apply bool_decide_eq_false in Hi.
    split; [done|]. split; [by exists s|done].
  - right. split; [done|]. split; [|done]. intros s Hs Hn.
    pose proof (proj1 (existsb_false_elem_of _ _) E s Hs) as Hc.
    apply andb_false_iff in Hc as [Hc|Hc].
    + by apply bool_decide_eq_false in Hc.
    + apply negb_false_iff in Hc. by apply bool_decide_eq_true in Hc.
Qed.

Lemma handleAddUserToSegment_segments userId segmentId st :
  segments (handleAddUserToSegment userId segmentId st).1 = segments st.
Proof.
  destruct (args_empty_or_not userId segmentId) as [Hbad|[Hu Hs]].
  - by rewrite handleAddUserToSegment_invalid by done.
  - by rewrite handleAddUserToSegment_valid by done.
Qed.

Lemma handleRemoveUserFromSegment_segments userId segmentId st :
  segments (handleRemoveUserFromSegment userId segmentId st).1 = segments st.
Proof.
  destruct (args_empty_or_not userId segmentId) as [Hbad|[Hu Hs]].
  - by rewrite handleRemoveUserFromSegment_invalid by done.
  - by rewrite handleRemoveUserFromSegment_valid by done.
Qed.

(** X1: whenever a handler shows an error toast, the state is the one it
    was called in. *)
Theorem errors_change_nothing op st n :
  notice op st = Some n → is_error n = true → run op st = st.
Proof.
  destruct op as [newId now name description|now id newName newDescription
                 |confirmed id name|userId segmentId|userId segmentId
                 |scheduling segmentId percentage]; cbn [notice run].
  - intros [= <-].
    destruct (handleCreateSegment_inv newId now name description st)
      as [[_ ->]|[(_ & _ & ->)|(_ & _ & ->)]]; done.
  - intros [= <-].
    destruct (handleUpdateSegment_inv now id newName newDescription st)
      as [[_ ->]|[(_ & _ & ->)|(_ & _ & ->)]]; done.
  - destruct confirmed; cbn; [|done]. by intros [= <-].
  - intros [= <-].
    destruct (args_empty_or_not userId segmentId) as [Hbad|[Hu Hs]].
    + by rewrite handleAddUserToSegment_invalid by done.
    + by rewrite handleAddUserToSegment_valid by done.
  - intros [= <-].
    destruct (args_empty_or_not userId segmentId) as [Hbad|[Hu Hs]].
    + by rewrite handleRemoveUserFromSegment_invalid by done.
    + by rewrite handleRemoveUserFromSegment_valid by done.
  - intros [= <-]. unfold handleAssignRandomUsers.
    destruct (JS.falsy segmentId); [done|].
    destruct (_ || _); [done|]. by destruct (assignLoop _ _ _ _).
Qed.

Lemma errors_change_nothing_witness :
  notice (AssignRandomUsers Deferred "k3x9q0a1z" 101) betaStore
  = Some PercentageOutOfRange
  ∧ run (AssignRandomUsers Deferred "k3x9q0a1z" 101) betaStore = betaStore.
Proof.
  assert (notice (AssignRandomUsers Deferred "k3x9q0a1z" 101) betaStore
          = Some PercentageOutOfRange) as Hn by reflexivity.
  split; [exact Hn|].
  exact (errors_change_nothing _ betaStore PercentageOutOfRange Hn eq_refl).
Defined.

(** ** Names of the stored segments *)

Lemma elem_of_map {A B} (f : A → B) (l : list A) y :
  y ∈ map f l ↔ ∃ x, y = f x ∧ x ∈ l.
Proof. change (map f l) with (f <$> l). apply list_elem_of_fmap. Qed.

(** X2: every handler keeps the stored names non-empty and trimmed, so
    they are in every state reached from the empty stores. *)
Theorem names_trimmed_invariant :
  (∀ op st, names_trimmed (segments st) → names_trimmed (segments (run op st)))
  ∧ (∀ st, reachable st → names_trimmed (segments st)).
Proof.
  assert (∀ op st, names_trimmed (segments st) →
                   names_trimmed (segments (run op st))) as Hstep.
  { intros op st Hinv.
    destruct op as [newId now name description|now id newName newDescription
                   |confirmed id name|userId segmentId|userId segmentId
                   |scheduling segmentId percentage]; cbn [run].
    - destruct (handleCreateSegment_inv newId now name description st)
        as [[_ ->]|[(_ & _ & ->)|(Hne & _ & ->)]]; [done..|].
      cbn [fst segments]. intros s Hs.
      apply elem_of_app in Hs as [Hs|Hs]; [by apply Hinv|].
      apply list_elem_of_singleton in Hs as ->. cbn.
      split; [done|apply trim_idemp].
    - destruct (handleUpdateSegment_inv now id newName newDescription st)
        as [[_ ->]|[(_ & _ & ->)|(Hne & _ & ->)]]; [done..|].
      cbn [fst segments]. intros s' Hs'.
      apply elem_of_map in Hs' as (s & -> & Hs).
      case_bool_decide; [|by apply Hinv].
      cbn. split; [done|apply trim_idemp].
    - destruct confirmed; [|done]. cbn. intros s Hs.
      apply list_elem_of_filter in Hs as [_ Hs]. by apply Hinv.
    - by rewrite handleAddUserToSegment_segments.
    - by rewrite handleRemoveUserFromSegment_segments.
    - by rewrite handleAssignRandomUsers_segments. }
  split; [exact Hstep|].
  induction 1 as [|op st Hreach IH]; [|by apply Hstep].
  intros s Hs. by apply elem_of_nil in Hs.
Qed.

Lemma names_trimmed_invariant_witness :
  let st :=
    run (UpdateSegment "2024-03-03T00:00:00.000Z" "k3x9q0a1z" " GAMMA  " "")
      (run (CreateSegment "k3x9q0a1z" "2024-01-01T00:00:00.000Z" " BETA " "")
         initialState) in
  reachable st ∧ names_trimmed (segments st)
  ∧ map Segment.name (segments st) = ["GAMMA"].
Proof.
  intros st.
  assert (reachable st) as Hreach by (do 2 apply reachable_run; constructor).
  split; [exact Hreach|].
  split; [exact (proj2 names_trimmed_invariant st Hreach)|by vm_compute].
Defined.

Lemma NoDup_map_inj {A B} (f : A → B) (l : list A) x y :
  NoDup (map f l) → x ∈ l → y ∈ l → f x = f y → x = y.
Proof.
  induction l as [|a l IH]; intros Hnd Hx Hy Hf.
  { by apply elem_of_nil in Hx. }
  cbn [map] in Hnd. apply NoDup_cons in Hnd as [Ha Hnd].
  apply elem_of_cons in Hx as [->|Hx], Hy as [->|Hy]; [done|..|by apply IH].
  - exfalso. apply Ha. rewrite Hf. apply elem_of_map. eauto.
  - exfalso. apply Ha. rewrite <-Hf. apply elem_of_map. eauto.
Qed.

(** X3: a creation whose name is typed without surrounding white space
    keeps the names of the store pairwise different. *)
Theorem create_keeps_names_unique newId now name description st :
  names_unique (segments st) → JS.trim name = name →
  names_unique (segments (handleCreateSegment newId now name description st).1).
Proof.
  intros Hnd Htrim.
  destruct (handleCreateSegment_inv newId now name description st)
    as [[_ ->]|[(_ & _ & ->)|(_ & Hfresh & ->)]]; [done..|].
  cbn [fst segments]. unfold names_unique in *.
  rewrite map_app. apply NoDup_app. split; [done|]. split.
  - intros n Hn Hin. cbn in Hin. apply list_elem_of_singleton in Hin.
    apply elem_of_map in Hn as (s & -> & Hs).
    apply (Hfresh s Hs). congruence.
  - cbn. apply NoDup_singleton.
Qed.

Lemma create_keeps_names_unique_witness :
  names_unique (segments namedStore) ∧ JS.trim "B" = "B"
  ∧ names_unique
      (segments
         (handleCreateSegment "m4n5b6v7c" "2024-02-02T00:00:00.000Z" "B" ""
            namedStore).1).
Proof.
  assert (names_unique (segments namedStore)) as Hnd
    by (unfold names_unique; cbn; apply NoDup_singleton).
  assert (JS.trim "B" = "B") as Htrim by by vm_compute.
  split; [exact Hnd|]. split; [exact Htrim|].
  exact (create_keeps_names_unique _ _ "B" "" namedStore Hnd Htrim).
Defined.

Lemma rename_keeps_NoDup now id newName newDescription (segs : list Segment.t) :
  NoDup (map Segment.name segs) → NoDup (map Segment.id segs) →
  (∀ s, s ∈ segs → Segment.name s = JS.trim newName → Segment.id s = id) →
  NoDup (map Segment.name
           (map (λ s, if bool_decide (Segment.id s = id)
                      then updatedSegment now newName newDescription s
                      else s)
              segs)).
Proof.
  induction segs as [|s segs IH]; intros Hnames Hids Hcheck; [constructor|].
  cbn [map] in *.
  apply NoDup_cons in Hnames as [Hname Hnames].
  apply NoDup_cons in Hids as [Hid Hids].
  apply NoDup_cons. split.
  - intros Hin. apply elem_of_map in Hin as (r' & Heq & Hr').
    apply elem_of_map in Hr' as (r & -> & Hr).
    assert (Segment.id r ≠ Segment.id s) as Hrs.
    { intros E. apply Hid. rewrite <-E. apply elem_of_map. eauto. }
    assert (Segment.name r ≠ Segment.name s) as Hn.
    { intros E. apply Hname. rewrite <-E. apply elem_of_map. eauto. }
    pose proof (Hcheck s ltac:(by left)) as Hs.
    pose proof (Hcheck r ltac:(by right)) as Hr0.
    repeat case_bool_decide; cbn in Heq; subst; try congruence.
    + by apply Hrs, Hr0.
    + apply Hrs. symmetry. by apply Hs.
  - apply IH; [done..|]. intros r Hr. apply Hcheck. by right.
Qed.

(** X4: when the ids of the store are pairwise different, an update whose
    name is typed without surrounding white space keeps the names pairwise
    different. *)
Theorem update_keeps_names_unique now id newName newDescription st :
  names_unique (segments st) → ids_unique (segments st) →
  JS.trim newName = newName →
  names_unique
    (segments (handleUpdateSegment now id newName newDescription st).1).
Proof.
  intros Hnames Hids Htrim.
  destruct (handleUpdateSegment_inv now id newName newDescription st)
    as [[_ ->]|[(_ & _ & ->)|(_ & Hcheck & ->)]]; [done..|].
  cbn [fst segments]. apply rename_keeps_NoDup; [done..|].
  by rewrite Htrim.
Qed.

Lemma update_keeps_names_unique_witness :
  let r := handleUpdateSegment "2024-03-03T00:00:00.000Z" "k3x9q0a1z" "GAMMA"
             "" twoSegmentStore in
  map Segment.name (segments r.1) = ["GAMMA"; "ALPHA"]
  ∧ names_unique (segments r.1).
Proof.
  assert (names_unique (segments twoSegmentStore)) as Hnames
    by by_evaluation.
  assert (ids_unique (segments twoSegmentStore)) as Hids
    by by_evaluation.
  assert (JS.trim "GAMMA" = "GAMMA") as Htrim by by vm_compute.
  split; [by vm_compute|].
  exact (update_keeps_names_unique _ "k3x9q0a1z" "GAMMA" "" twoSegmentStore
           Hnames Hids Htrim).
Defined.

(** X5: in a store with pairwise different names, a segment can be
    updated under the name it already has: the duplicate check lets the
    edit through, and the description and the update time are replaced. *)
Theorem update_own_name_succeeds now newDescription s st :
  names_unique (segments st) → s ∈ segments st →
  JS.trim (Segment.name s) ≠ "" →
  let r := handleUpdateSegment now (Segment.id s) (Segment.name s)
             newDescription st in
  r.2 = SegmentUpdated (Segment.name s)
  ∧ updatedSegment now (Segment.name s) newDescription s ∈ segments r.1.
Proof.
  intros Hnames Hs Hne r. subst r.
  destruct (handleUpdateSegment_inv now (Segment.id s) (Segment.name s)
              newDescription st)
    as [[Hbad _]|[(_ & (s' & Hs' & Hn & Hi) & _)|(_ & _ & ->)]].
  - done.
  - exfalso. apply Hi. f_equal.
    by apply (NoDup_map_inj Segment.name (segments st)).
  - cbn [fst snd segments]. split; [done|].
    apply elem_of_map. exists s. split; [|done].
    by rewrite bool_decide_eq_true_2.
Qed.

Lemma update_own_name_succeeds_witness :
  let r := handleUpdateSegment "2024-03-03T00:00:00.000Z" "k3x9q0a1z" "BETA"
             "Closed beta" twoSegmentStore in
  r.2 = SegmentUpdated "BETA"
  ∧ updatedSegment "2024-03-03T00:00:00.000Z" "BETA" "Closed beta" betaSegment
    ∈ segments r.1.
Proof.
  assert (names_unique (segments twoSegmentStore)) as Hnames
    by by_evaluation.
  assert (betaSegment ∈ segments twoSegmentStore) as Hs by (cbn; by left).
  assert (JS.trim (Segment.name betaSegment) ≠ "") as Hne
    by (vm_compute; discriminate).
  exact (update_own_name_succeeds "2024-03-03T00:00:00.000Z" "Closed beta"
           betaSegment twoSegmentStore Hnames Hs Hne).
Defined.

(** ** Ids of the stored segments *)

Lemma NoDup_map_filter {A B} (f : A → B) (P : A → Prop)
    `{!∀ x, Decision (P x)} (l : list A) :
  NoDup (map f l) → NoDup (map f (filter P l)).
Proof.
  change (map f ?l) with (f <$> l). intros Hnd.
  eapply sublist_NoDup; [exact Hnd|].
  apply fmap_sublist, sublist_filter.
Qed.

(** X6: [handleUpdateSegment] never changes the id or the creation time
    of a segment, the number or the order of the segments, or the
    membership index; and every handler keeps the ids of the store
    pairwise different, provided the id a creation is given is fresh. *)
Theorem ids_kept :
  (∀ now id newName newDescription st,
     let st' := (handleUpdateSegment now id newName newDescription st).1 in
     map Segment.id (segments st') = map Segment.id (segments st)
     ∧ map Segment.createdAt (segments st')
       = map Segment.createdAt (segments st)
     ∧ userSegments st' = userSegments st)
  ∧ (∀ op st,
       ids_unique (segments st) → fresh_id op st →
       ids_unique (segments (run op st))).
Proof.
  split.
  - intros now id newName newDescription st st'. subst st'.
    destruct (handleUpdateSegment_inv now id newName newDescription st)
      as [[_ ->]|[(_ & _ & ->)|(_ & _ & ->)]]; [done..|].
    cbn [fst segments userSegments]. rewrite !map_map.
    split; [|split; [|done]]; apply map_ext; intros s; by case_bool_decide.
  - intros op st Hids Hfresh. unfold ids_unique in *.
    destruct op as [newId now name description|now id newName newDescription
                   |confirmed id name|userId segmentId|userId segmentId
                   |scheduling segmentId percentage]; cbn [run fresh_id] in *.
    + destruct (handleCreateSegment_inv newId now name description st)
        as [[_ ->]|[(_ & _ & ->)|(_ & _ & ->)]]; [done..|].
      cbn [fst segments]. rewrite map_app. apply NoDup_app.
      split; [done|]. split; [|apply NoDup_singleton].
      intros i Hi Hin. cbn in Hin. apply list_elem_of_singleton in Hin.
      subst i. by apply Hfresh.
    + by rewrite (proj1 (handleUpdateSegment_ids now id newName newDescription st)).
    + destruct confirmed; [|done]. cbn. by apply NoDup_map_filter.
    + by rewrite handleAddUserToSegment_segments.
    + by rewrite handleRemoveUserFromSegment_segments.
    + by rewrite handleAssignRandomUsers_segments.
Qed.

Lemma ids_kept_witness :
  let op := CreateSegment "z9y8x7w6v" "2024-03-03T00:00:00.000Z" "GAMMA" "" in
  ids_unique (segments twoSegmentStore) ∧ fresh_id op twoSegmentStore
  ∧ ids_unique (segments (run op twoSegmentStore)).
Proof.
  intros op.
  assert (ids_unique (segments twoSegmentStore)) as Hids
    by by_evaluation.
  assert (fresh_id op twoSegmentStore) as Hfresh
    by by_evaluation.
  split; [exact Hids|]. split; [exact Hfresh|].
  exact (proj2 ids_kept op twoSegmentStore Hids Hfresh).
Defined.

(** ** Invariants of the membership index *)

(** X7: every handler keeps the membership index free of keys with an
    empty set, so every state reached from the empty stores is. *)
Theorem no_empty_sets_invariant :
  (∀ op st,
     no_empty_sets (userSegments st) →
     no_empty_sets (userSegments (run op st)))
  ∧ (∀ st, reachable st → no_empty_sets (userSegments st)).
Proof.
  split.
  - intros op st. apply run_keeps_no_empty_sets.
  - intros st. apply no_empty_sets_reachable.
Qed.

Lemma no_empty_sets_invariant_witness :
  let st := run (RemoveUserFromSegment "42" "k3x9q0a1z") memberStore in
  no_empty_sets (userSegments memberStore)
  ∧ no_empty_sets (userSegments st)
  ∧ userSegments st = ∅.
Proof.
  intros st.
  assert (no_empty_sets (userSegments memberStore)) as Hinv.
  { intros k. cbn. destruct (decide (k = "42")) as [->|Hk].
    - by rewrite lookup_singleton_eq.
    - by rewrite lookup_singleton_ne. }
  split; [exact Hinv|].
  split; [exact (proj1 no_empty_sets_invariant _ memberStore Hinv)|].
  by vm_compute.
Defined.

Lemma assignValue_nodup segmentId percentage u o :
  (∀ l, o = Some l → NoDup l) →
  ∀ l, assignValue segmentId percentage u o = Some l → NoDup l.
Proof.
  intros Ho l. unfold assignValue.
  assert (NoDup (default [] o)) as Hcur.
  { destruct o as [cur|]; [by apply Ho|constructor]. }
  repeat case_bool_decide; try done.
  - apply Ho.
  - intros [= <-]. apply NoDup_app. split; [done|].
    split; [|apply NoDup_singleton].
    intros x Hx Hin. apply list_elem_of_singleton in Hin. by subst x.
  - intros [= <-]. by apply NoDup_filter.
Qed.

Lemma assignLoop_sets_nodup segmentId percentage cands m :
  NoDup cands → sets_nodup m →
  sets_nodup (assignLoop cands segmentId percentage m).1.
Proof.
  intros Hnd Hm k l. unfold assignLoop.
  destruct (decide (k ∈ JS.key_of <$> cands)) as [Hin|Hout].
  - apply list_elem_of_fmap in Hin as (u & -> & Hu).
    rewrite assignLoop_lookup by done.
    apply assignValue_nodup. apply Hm.
  - rewrite assignLoop_frame; [apply Hm|].
    intros u Hu ->. apply Hout. by apply list_elem_of_fmap_2.
Qed.

(** X8: every handler keeps the membership sets free of repeated segment
    ids, so they are in every state reached from the empty stores. *)
Theorem sets_nodup_invariant :
  (∀ op st, sets_nodup (userSegments st) → sets_nodup (userSegments (run op st)))
  ∧ (∀ st, reachable st → sets_nodup (userSegments st)).
Proof.
  assert (∀ op st, sets_nodup (userSegments st) →
                   sets_nodup (userSegments (run op st))) as Hstep.
  { intros op st Hinv.
    assert (∀ k, NoDup (JS.get_or_empty (userSegments st) k)) as Hcur.
    { intros k. unfold JS.get_or_empty.
      destruct (userSegments st !! k) as [cur|] eqn:E;
        [by apply (Hinv k)|constructor]. }
    destruct op as [newId now name description|now id newName newDescription
                   |confirmed id name|userId segmentId|userId segmentId
                   |scheduling segmentId percentage]; cbn [run].
    - by destruct (handleCreateSegment_cases newId now name description st)
        as [->| ->].
    - by rewrite (proj2 (handleUpdateSegment_ids now id newName newDescription st)).
    - destruct confirmed; [|done]. cbn. intros k l.
      rewrite cascadeDelete_lookup.
      destruct (userSegments st !! k) as [cur|] eqn:E; [|done]. cbn.
      intros Hl. apply cascadeValue_Some in Hl as [-> _].
      apply NoDup_filter. by apply (Hinv k).
    - destruct (args_empty_or_not userId segmentId) as [Hbad|[Hu Hs]].
      { by rewrite handleAddUserToSegment_invalid by done. }
      rewrite handleAddUserToSegment_valid by done. cbn [fst userSegments].
      destruct (decide _) as [Hin|Hout]; [done|]. intros k l.
      destruct (decide (k = userId)) as [->|Hk].
      + rewrite lookup_insert_eq. intros [= <-].
        apply NoDup_app. split; [apply Hcur|].
        split; [|apply NoDup_singleton].
        intros x Hx Hin. apply list_elem_of_singleton in Hin. by subst x.
      + rewrite lookup_insert_ne by done. apply Hinv.
    - destruct (args_empty_or_not userId segmentId) as [Hbad|[Hu Hs]].
      { by rewrite handleRemoveUserFromSegment_invalid by done. }
      rewrite handleRemoveUserFromSegment_valid by done.
      cbn [fst userSegments]. intros k l.
      destruct (decide (k = userId)) as [->|Hk].
      + destruct (filter _ _) as [|x f] eqn:E.
        * by rewrite lookup_delete_eq.
        * rewrite lookup_insert_eq. intros [= <-]. rewrite <-E.
          apply NoDup_filter, Hcur.
      + destruct (filter _ _);
          rewrite ?lookup_delete_ne, ?lookup_insert_ne by done; apply Hinv.
    - destruct (handleAssignRandomUsers_cases scheduling segmentId percentage
          st)
        as [->| ->]; [done|].
      cbn [userSegments].
      by apply assignLoop_sets_nodup; [apply NoDup_allPossibleUserIds|]. }
  split; [exact Hstep|].
  induction 1 as [|op st Hreach IH]; [|by apply Hstep].
  intros k l. cbn. by rewrite lookup_empty.
Qed.

Lemma sets_nodup_invariant_witness :
  let st :=
    run (AssignRandomUsers Deferred "k3x9q0a1z" 30)
      (run (AddUserToSegment "1" "k3x9q0a1z")
         (run (AddUserToSegment "1" "k3x9q0a1z") initialState)) in
  reachable st ∧ sets_nodup (userSegments st)
  ∧ userSegments st !! "1" = Some ["k3x9q0a1z"].
Proof.
  intros st.
  assert (reachable st) as Hreach by (do 3 apply reachable_run; constructor).
  split; [exact Hreach|].
  split; [exact (proj2 sets_nodup_invariant st Hreach)|by vm_compute].
Defined.

(** ** What one add or remove does *)

Lemma filter_ne_nil (x : string) (l : list string) :
  filter (λ y, y ≠ x) l = [] ↔ ∀ y, y ∈ l → y = x.
Proof.
  split.
  - intros E y Hy. destruct (decide (y = x)) as [|Hne]; [done|].
    assert (y ∈ filter (λ y, y ≠ x) l) as Hf by by apply list_elem_of_filter.
    rewrite E in Hf. by apply elem_of_nil in Hf.
  - intros Hall. apply filter_none. intros y Hy Hne. by apply Hne, Hall.
Qed.

(** X9: a remove with non-empty arguments reports success; afterwards the
    user is not a member of the segment, every other membership is as it
    was, and the key of the user is gone exactly when the user had no
    other membership. *)
Theorem removeUserFromSegment_removes userId segmentId st :
  userId ≠ "" → segmentId ≠ "" →
  let r := handleRemoveUserFromSegment userId segmentId st in
  r.2 = UserRemoved userId
  ∧ segments r.1 = segments st
  ∧ ¬ member (userSegments r.1) userId segmentId
  ∧ (∀ u s, member (userSegments r.1) u s
            ↔ member (userSegments st) u s ∧ ¬ (u = userId ∧ s = segmentId))
  ∧ (userSegments r.1 !! userId = None
     ↔ ∀ s, member (userSegments st) userId s → s = segmentId).
Proof.
  intros Hu Hs r. subst r.
  pose proof (λ u s, handleRemoveUserFromSegment_member userId segmentId st
                       u s Hu Hs) as Hmem.
  split; [by rewrite handleRemoveUserFromSegment_valid by done|].
  split; [apply handleRemoveUserFromSegment_segments|].
  split; [rewrite Hmem; tauto|]. split; [exact Hmem|].
  rewrite handleRemoveUserFromSegment_valid by done.
  cbn [fst userSegments]. unfold member.
  rewrite <-filter_ne_nil.
  destruct (filter _ _) as [|x l].
  - by rewrite lookup_delete_eq.
  - by rewrite lookup_insert_eq.
Qed.

Lemma removeUserFromSegment_removes_witness :
  let r := handleRemoveUserFromSegment "42" "k3x9q0a1z" twoSegmentStore in
  r.2 = UserRemoved "42"
  ∧ segments r.1 = segments twoSegmentStore
  ∧ ¬ member (userSegments r.1) "42" "k3x9q0a1z"
  ∧ userSegments r.1 !! "42" = Some ["a1b2c3d4e"].
Proof.
  destruct (removeUserFromSegment_removes "42" "k3x9q0a1z" twoSegmentStore)
    as (H1 & H2 & H3 & _); [discriminate..|].
  split; [exact H1|]. split; [exact H2|]. split; [exact H3|]. by vm_compute.
Defined.

(** X10: adding a user to a segment it is a member of changes nothing,
    and so does removing a user from a segment it is not a member of,
    unless the key of the user holds an empty set, which the remove
    deletes. *)
Theorem add_member_remove_stranger_noop userId segmentId st :
  (member (userSegments st) userId segmentId →
   (handleAddUserToSegment userId segmentId st).1 = st)
  ∧ (¬ member (userSegments st) userId segmentId →
     userSegments st !! userId ≠ Some [] →
     (handleRemoveUserFromSegment userId segmentId st).1 = st)
  ∧ (userId ≠ "" → segmentId ≠ "" → userSegments st !! userId = Some [] →
     userSegments (handleRemoveUserFromSegment userId segmentId st).1
     = delete userId (userSegments st)).
Proof.
  destruct st as [segs m]. cbn [userSegments]. unfold member, JS.get_or_empty.
  split; [|split].
  - intros Hin.
    destruct (args_empty_or_not userId segmentId) as [Hbad|[Hu Hs]].
    { by rewrite handleAddUserToSegment_invalid by done. }
    rewrite handleAddUserToSegment_valid by done.
    cbn [fst segments userSegments]. unfold JS.get_or_empty.
    by rewrite decide_True by done.
  - intros Hout Hne.
    destruct (args_empty_or_not userId segmentId) as [Hbad|[Hu Hs]].
    { by rewrite handleRemoveUserFromSegment_invalid by done. }
    rewrite handleRemoveUserFromSegment_valid by done.
    cbn [fst segments userSegments]. unfold JS.get_or_empty. f_equal.
    rewrite (filter_ne_absent _ _ Hout).
    destruct (m !! userId) as [[|x l]|] eqn:E; cbn.
    + done.
    + by apply insert_id.
    + by apply delete_id.
  - intros Hu Hs E.
    rewrite handleRemoveUserFromSegment_valid by done.
    cbn [fst userSegments]. unfold JS.get_or_empty. by rewrite E.
Qed.

Lemma add_member_remove_stranger_noop_witness :
  (handleAddUserToSegment "42" "k3x9q0a1z" twoSegmentStore).1 = twoSegmentStore
  ∧ (handleRemoveUserFromSegment "7" "k3x9q0a1z" twoSegmentStore).1
    = twoSegmentStore.
Proof.
  destruct (add_member_remove_stranger_noop "42" "k3x9q0a1z" twoSegmentStore)
    as (Hadd & _ & _).
  destruct (add_member_remove_stranger_noop "7" "k3x9q0a1z" twoSegmentStore)
    as (_ & Hrem & _).
  split.
  - apply Hadd. by_evaluation.
  - apply Hrem; [by_evaluation|by vm_compute].
Defined.

Lemma state_eq (a b : AppState) :
  segments a = segments b → userSegments a = userSegments b → a = b.
Proof. destruct a, b. cbn. by intros -> ->. Qed.

Lemma handleAddUserToSegment_old userId segmentId st :
  member (userSegments st) userId segmentId →
  (handleAddUserToSegment userId segmentId st).1 = st.
Proof.
  intros Hin. destruct st as [segs m].
  destruct (args_empty_or_not userId segmentId) as [Hbad|[Hu Hs]].
  { by rewrite handleAddUserToSegment_invalid by done. }
  rewrite handleAddUserToSegment_valid by done.
  cbn [fst segments userSegments] in *. by rewrite decide_True by done.
Qed.

Lemma handleAddUserToSegment_new userId segmentId st :
  userId ≠ "" → segmentId ≠ "" →
  ¬ member (userSegments st) userId segmentId →
  (handleAddUserToSegment userId segmentId st).1
  = mkState (segments st)
      (<[userId := JS.get_or_empty (userSegments st) userId ++ [segmentId]]>
         (userSegments st)).
Proof.
  intros Hu Hs Hout. rewrite handleAddUserToSegment_valid by done.
  cbn [fst]. by rewrite decide_False by done.
Qed.



(** ** Lookup and deletion *)

(** X12: [handleLookup] returns, in the order of the store, exactly the
    segments of the store whose id is in the membership set of the user;
    ids of the set that no segment has are skipped, and an empty user id
    finds nothing. *)
Theorem lookup_lists_memberships segs m userId :
  handleLookup segs m userId `sublist_of` segs
  ∧ ∀ s, s ∈ handleLookup segs m userId
         ↔ userId ≠ "" ∧ s ∈ segs ∧ member m userId (Segment.id s).
Proof.
  unfold handleLookup, member.
  destruct (JS.falsy userId) eqn:Ef.
  { apply falsy_true in Ef. split; [apply sublist_nil_l|].
    intros s. split; [intros Hs; by apply elem_of_nil in Hs|tauto]. }
  apply falsy_false in Ef. case_bool_decide as Hlen.
  - apply length_zero_nil in Hlen. rewrite Hlen.
    split; [apply sublist_nil_l|].
    intros s. split; intros Hs.
    + by apply elem_of_nil in Hs.
    + destruct Hs as (_ & _ & Hs). by apply elem_of_nil in Hs.
  - split; [apply sublist_filter|].
    intros s. rewrite list_elem_of_filter. tauto.
Qed.

Lemma get_cascadeDelete id m userId :
  JS.get_or_empty (cascadeDelete id m) userId
  = filter (λ segmentId, segmentId ≠ id) (JS.get_or_empty m userId).
Proof.
  unfold JS.get_or_empty. rewrite cascadeDelete_lookup.
  destruct (m !! userId) as [l|]; [|done]. cbn.
  unfold cascadeValue. case_bool_decide as Hlen; [|done].
  apply length_zero_nil in Hlen. by rewrite Hlen.
Qed.

(** X13: after a confirmed deletion of [id], the lookup of any user
    returns what it returned before, without the segments whose id is
    [id]. *)
Theorem lookup_after_delete id name st userId :
  let st' := (handleDeleteSegment true id name st).1 in
  handleLookup (segments st') (userSegments st') userId
  = filter (λ s, Segment.id s ≠ id)
      (handleLookup (segments st) (userSegments st) userId).
Proof.
  intros st'. subst st'. cbn [handleDeleteSegment fst].
  unfold setUserSegments, setSegments. cbn [segments userSegments].
  unfold handleLookup. destruct (JS.falsy userId); [done|].
  rewrite get_cascadeDelete.
  set (ids := JS.get_or_empty (userSegments st) userId).
  destruct (decide (ids = [])) as [E|E].
  { by rewrite E. }
  rewrite (bool_decide_eq_false_2 (length ids = 0%nat))
    by (by rewrite length_zero_nil).
  destruct (decide (filter (λ x, x ≠ id) ids = [])) as [F|F].
  - rewrite bool_decide_eq_true_2 by (by rewrite F).
    symmetry. rewrite list_filter_filter. apply filter_none.
    intros s _ [Hne Hin].
    assert (Segment.id s ∈ filter (λ x, x ≠ id) ids) as Hf
      by by apply list_elem_of_filter.
    rewrite F in Hf. by apply elem_of_nil in Hf.
  - rewrite bool_decide_eq_false_2 by (by rewrite length_zero_nil).
    rewrite !list_filter_filter. apply list_filter_iff. intros s.
    rewrite list_elem_of_filter. tauto.
Qed.

(** X14: a second confirmed deletion of the same id changes nothing. *)
Theorem deleteSegment_twice id name name' st :
  (handleDeleteSegment true id name'
     (handleDeleteSegment true id name st).1).1
  = (handleDeleteSegment true id name st).1.
Proof.
  cbn [handleDeleteSegment fst]. unfold setUserSegments, setSegments.
  cbn [segments userSegments]. f_equal.
  - rewrite list_filter_filter. apply list_filter_iff. tauto.
  - apply map_eq. intros k. rewrite !cascadeDelete_lookup.
    destruct (userSegments st !! k) as [l|]; [|done]. cbn.
    destruct (cascadeValue id l) as [f|] eqn:E; [|done]. cbn.
    apply cascadeValue_Some in E as [-> Hne].
    unfold cascadeValue. rewrite filter_ne_idemp.
    rewrite bool_decide_eq_false_2; [done|].
    by rewrite length_zero_nil.
Qed.

(** X15: a confirmed deletion of [id] keeps every segment with another
    id, in the order of the store, and every membership in a segment
    with another id; a declined deletion keeps the whole state. *)
Theorem deleteSegment_frame id name st seg userId otherId :
  Segment.id seg ≠ id → otherId ≠ id →
  let st' := (handleDeleteSegment true id name st).1 in
  segments st' `sublist_of` segments st
  ∧ (seg ∈ segments st' ↔ seg ∈ segments st)
  ∧ (member (userSegments st') userId otherId
     ↔ member (userSegments st) userId otherId)
  ∧ handleDeleteSegment false id name st = (st, None).
Proof.
  intros Hseg Hother st'. subst st'. cbn [handleDeleteSegment fst].
  unfold setUserSegments, setSegments. cbn [segments userSegments].
  split; [apply sublist_filter|].
  split; [rewrite list_elem_of_filter; tauto|].
  split; [rewrite cascadeDelete_member; tauto|done].
Qed.

Lemma deleteSegment_frame_witness :
  let st' := (handleDeleteSegment true "k3x9q0a1z" "BETA" twoSegmentStore).1 in
  segments st' = [alphaSegment]
  ∧ (alphaSegment ∈ segments st' ↔ alphaSegment ∈ segments twoSegmentStore)
  ∧ (member (userSegments st') "42" "a1b2c3d4e"
     ↔ member (userSegments twoSegmentStore) "42" "a1b2c3d4e").
Proof.
  destruct (deleteSegment_frame "k3x9q0a1z" "BETA" twoSegmentStore
              alphaSegment "42" "a1b2c3d4e")
    as (_ & H2 & H3 & _); [discriminate..|].
  split; [by vm_compute|]. split; [exact H2|exact H3].
Defined.

(** ** More on the percentage assignment *)

Lemma bucket_count p :
  0 ≤ p ≤ 100 →
  length (filter (λ u, u `mod` 100 < p) allPossibleUserIds)
  = Z.to_nat (10 * p).
Proof.
  intros Hp.
  assert (Forall
            (λ q, length (filter (λ u, u `mod` 100 < q) allPossibleUserIds)
                  = Z.to_nat (10 * q))
            (seqZ 0 101)) as Hall by by_evaluation.
  rewrite Forall_forall in Hall. apply Hall, elem_of_seqZ. lia.
Qed.

(** X16: after an assignment with a non-empty segment id and a percentage
    [p] in [0, 100], exactly [10 * p] of the thousand candidates are
    members of the segment, whichever were members before. *)
Theorem assignRandomUsers_share scheduling segmentId percentage st :
  segmentId ≠ "" → 0 ≤ percentage ≤ 100 →
  let r := handleAssignRandomUsers scheduling segmentId percentage st in
  length (candidateMembers segmentId (userSegments r.1))
  = Z.to_nat (10 * percentage).
Proof.
  intros Hs Hp r. subst r.
  rewrite <-(bucket_count percentage Hp).
  unfold candidateMembers. f_equal.
  apply list_filter_iff_strong. intros u Hu.
  apply elem_of_allPossibleUserIds in Hu.
  by apply handleAssignRandomUsers_candidate.
Qed.

Lemma assignRandomUsers_share_witness :
  let r := handleAssignRandomUsers Deferred "a1b2c3d4e" 30 betaStore in
  length (candidateMembers "a1b2c3d4e" (userSegments r.1)) = 300%nat.
Proof.
  apply (assignRandomUsers_share Deferred "a1b2c3d4e" 30 betaStore);
    [discriminate|lia].
Defined.



(** X18: the last assignment to a segment decides: after an assignment
    with any percentage followed by one with [q] in [0, 100], every user
    has the memberships it has after the assignment with [q] alone. *)
Theorem assignRandomUsers_overrides scheduling scheduling' scheduling''
    segmentId p q st userId s :
  segmentId ≠ "" → 0 ≤ q ≤ 100 →
  member
    (userSegments
       (handleAssignRandomUsers scheduling' segmentId q
          (handleAssignRandomUsers scheduling segmentId p st).1).1) userId s
  ↔ member
      (userSegments (handleAssignRandomUsers scheduling'' segmentId q st).1)
      userId s.
Proof.
  intros Hs Hq.
  destruct (decide (s = segmentId)) as [->|Hne].
  - destruct (decide (userId ∈ JS.key_of <$> allPossibleUserIds))
      as [Hin|Hout].
    + apply list_elem_of_fmap in Hin as (u & -> & Hu).
      apply elem_of_allPossibleUserIds in Hu.
      by rewrite !handleAssignRandomUsers_candidate by done.
    + unfold member, JS.get_or_empty.
      by rewrite !handleAssignRandomUsers_other_keys
        by (by apply key_not_candidate).
  - by rewrite !handleAssignRandomUsers_other_segments by done.
Qed.

Lemma assignRandomUsers_overrides_witness :
  member
    (userSegments
       (handleAssignRandomUsers Deferred "k3x9q0a1z" 10
          (handleAssignRandomUsers Deferred "k3x9q0a1z" 90 betaStore).1).1)
    "250" "k3x9q0a1z"
  ↔ member
      (userSegments
         (handleAssignRandomUsers Deferred "k3x9q0a1z" 10 betaStore).1)
      "250" "k3x9q0a1z".
Proof.
  apply (assignRandomUsers_overrides Deferred Deferred Deferred "k3x9q0a1z"
           90 10 betaStore);
    [discriminate|lia].
Defined.

(** ** Creating a segment, adding a user, looking the user up *)

(** X20: after a segment is created under a fresh, non-empty id and a
    user is added to it, the lookup of the user returns what it returned
    before, followed by the new segment. *)
Theorem created_segment_is_found newId now name description userId st :
  JS.trim name ≠ "" →
  (∀ s, s ∈ segments st → Segment.name s ≠ name) →
  newId ≠ "" → ¬ live (segments st) newId → userId ≠ "" →
  let st1 := (handleCreateSegment newId now name description st).1 in
  let st2 := (handleAddUserToSegment userId newId st1).1 in
  handleLookup (segments st2) (userSegments st2) userId
  = handleLookup (segments st) (userSegments st) userId
    ++ [Segment.mk newId (JS.trim name) (JS.trim description) now now].
Proof.
  intros Hname Hfresh Hid Hdead Hu st1 st2.
  set (new := Segment.mk newId (JS.trim name) (JS.trim description) now now).
  assert (st1 = mkState (segments st ++ [new]) (userSegments st)) as E1.
  { subst st1.
    destruct (handleCreateSegment_inv newId now name description st)
      as [[? _]|[(_ & (s & Hs & Hn) & _)|(_ & _ & ->)]]; [done| |done].
    by destruct (Hfresh s Hs). }
  assert (∀ s, s ∈ segments st → Segment.id s ≠ newId) as Hother.
  { intros s Hs E. apply Hdead. unfold live. rewrite <-E.
    apply elem_of_map. eauto. }
  assert (∀ ids, filter (λ s, Segment.id s ∈ ids ++ [newId]) (segments st)
                 = filter (λ s, Segment.id s ∈ ids) (segments st)) as Hsame.
  { intros ids. apply list_filter_iff_strong. intros s Hs.
    rewrite elem_of_app, list_elem_of_singleton.
    pose proof (Hother s Hs). tauto. }
  assert (segments st2 = segments st ++ [new]) as Hsegs.
  { subst st2. by rewrite handleAddUserToSegment_segments, E1. }
  rewrite Hsegs. unfold handleLookup.
  rewrite (proj2 (falsy_false _) Hu).
  set (ids := JS.get_or_empty (userSegments st) userId).
  destruct (decide (member (userSegments st1) userId newId)) as [Hin|Hout].
  - assert (newId ∈ ids) as Hin' by (by rewrite E1 in Hin).
    assert (JS.get_or_empty (userSegments st2) userId = ids) as ->.
    { subst st2. by rewrite handleAddUserToSegment_old, E1 by done. }
    assert (ids ≠ []) as Hne by (intros E; rewrite E in Hin'; by apply elem_of_nil in Hin').
    rewrite !bool_decide_eq_false_2 by (by rewrite length_zero_nil).
    rewrite filter_app. f_equal.
    rewrite filter_cons_True by done. done.
  - assert (JS.get_or_empty (userSegments st2) userId = ids ++ [newId]) as ->.
    { subst st2. rewrite handleAddUserToSegment_new by done.
      cbn [userSegments]. unfold JS.get_or_empty at 1.
      rewrite lookup_insert_eq. cbn. by rewrite E1. }
    rewrite bool_decide_eq_false_2
      by (rewrite length_app; cbn; lia).
    rewrite filter_app, Hsame.
    rewrite filter_cons_True
      by (cbn; rewrite elem_of_app, list_elem_of_singleton; tauto).
    rewrite filter_nil. f_equal.
    case_bool_decide as Hlen; [|done].
    apply length_zero_nil in Hlen. rewrite Hlen.
    apply filter_none. intros s _ Hs. by apply elem_of_nil in Hs.
Qed.

Lemma created_segment_is_found_witness :
  let st1 :=
    (handleCreateSegment "z9y8x7w6v" "2024-03-03T00:00:00.000Z" "GAMMA" ""
       twoSegmentStore).1 in
  let st2 := (handleAddUserToSegment "7" "z9y8x7w6v" st1).1 in
  handleLookup (segments st2) (userSegments st2) "7"
  = handleLookup (segments twoSegmentStore) (userSegments twoSegmentStore) "7"
    ++ [Segment.mk "z9y8x7w6v" (JS.trim "GAMMA") (JS.trim "")
          "2024-03-03T00:00:00.000Z" "2024-03-03T00:00:00.000Z"].
Proof.
  apply (created_segment_is_found "z9y8x7w6v" "2024-03-03T00:00:00.000Z"
           "GAMMA" "" "7" twoSegmentStore).
  - vm_compute. discriminate.
  - apply Forall_forall. by_evaluation.
  - discriminate.
  - by_evaluation.
  - discriminate.
Defined.
